(** * cai2hcl: the generic conversion framework of package [common]

    A shallow embedding of [Convert], [hclWriteBlock] and
    [normalizeFlattenedMap] (cai2hcl/common/utils.go) together with the
    pattern-based resolver exercised by
    [TestTryGetConverterNameByAssetNameRegex].

    The external packages the code calls into (go-cty, hclwrite, the
    terraform plugin SDK's [schema.Set], Go's [regexp]) are modelled in
    modules of their own; everything of package [common] is at top level
    and keeps its Go name. *)

From stdpp Require Import gmap strings list fin_maps pretty.

#[local] Set Warnings "-register-all".

(** ** Go conventions *)

(** An [error] value is represented by its message; [None] is Go's [nil]. *)
Definition error := string.

(** A Go result pair [(T, error)]; a [nil] slice is [None]. *)
Definition GoResult (T : Type) : Type := option T * option error.

(** ** Package cty: types and values

    Values are the ones [ctyjson.Unmarshal] can build: known and unmarked.
    Numbers are restricted to integers. *)
Module cty.

Inductive Ty :=
| TyString
| TyNumber
| TyBool
| TyDynamic
| TyObject (atys : list (string * Ty))
| TyList (ety : Ty)
| TySet (ety : Ty)
| TyMap (ety : Ty)
| TyTuple (etys : list Ty).

(** [ObjectVal] and [MapVal] list their entries in the order
    [ElementIterator] yields them (by key); [SetVal] lists its elements in
    the set's iteration order. *)
Inductive Value :=
| NullVal (ty : Ty)
| StringVal (s : string)
| NumberIntVal (n : Z)
| BoolVal (b : bool)
| ObjectVal (attrs : list (string * Value))
| ListVal (ety : Ty) (elems : list Value)
| SetVal (ety : Ty) (elems : list Value)
| MapVal (ety : Ty) (elems : list (string * Value))
| TupleVal (elems : list Value).

Fixpoint TypeOf (val : Value) : Ty :=
  match val with
  | NullVal ty => ty
  | StringVal _ => TyString
  | NumberIntVal _ => TyNumber
  | BoolVal _ => TyBool
  | ObjectVal attrs =>
      TyObject ((fix atys (l : list (string * Value)) :=
                   match l with
                   | [] => []
                   | (k, v) :: l' => (k, TypeOf v) :: atys l'
                   end) attrs)
  | ListVal ety _ => TyList ety
  | SetVal ety _ => TySet ety
  | MapVal ety _ => TyMap ety
  | TupleVal elems =>
      TyTuple ((fix etys (l : list Value) :=
                  match l with
                  | [] => []
                  | v :: l' => TypeOf v :: etys l'
                  end) elems)
  end.

Definition IsNull (val : Value) : bool :=
  match val with NullVal _ => true | _ => false end.

Definition IsObjectType (t : Ty) : bool :=
  match t with TyObject _ => true | _ => false end.

Definition IsMapType (t : Ty) : bool :=
  match t with TyMap _ => true | _ => false end.

Definition IsCollectionType (t : Ty) : bool :=
  match t with TyList _ | TySet _ | TyMap _ => true | _ => false end.

(** [ElementType] panics on a type that is not a collection; [None] there. *)
Definition ElementType (t : Ty) : option Ty :=
  match t with
  | TyList ety | TySet ety | TyMap ety => Some ety
  | _ => None
  end.

Fixpoint FriendlyName (t : Ty) : string :=
  match t with
  | TyString => "string"
  | TyNumber => "number"
  | TyBool => "bool"
  | TyDynamic => "dynamic"
  | TyObject _ => "object"
  | TyList ety => "list of " +:+ FriendlyName ety
  | TySet ety => "set of " +:+ FriendlyName ety
  | TyMap ety => "map of " +:+ FriendlyName ety
  | TyTuple _ => "tuple"
  end.

(** [AsString] panics unless the value is a known, non-null string. *)
Definition AsString (val : Value) : option string :=
  match val with StringVal s => Some s | _ => None end.

(** The values [ElementIterator] yields, in order. *)
Definition Elements (val : Value) : list Value :=
  match val with
  | ObjectVal attrs | MapVal _ attrs => attrs.*2
  | ListVal _ elems | SetVal _ elems | TupleVal elems => elems
  | _ => []
  end.

Definition LengthInt (val : Value) : nat := length (Elements val).

(** The invariants go-cty maintains by construction: attribute names and
    map keys are unique, and the elements of a collection have the
    collection's element type. *)
Inductive WellTyped : Value -> Prop :=
| WT_null ty : WellTyped (NullVal ty)
| WT_string s : WellTyped (StringVal s)
| WT_number n : WellTyped (NumberIntVal n)
| WT_bool b : WellTyped (BoolVal b)
| WT_object attrs :
    NoDup attrs.*1 ->
    Forall (fun kv => WellTyped kv.2) attrs ->
    WellTyped (ObjectVal attrs)
| WT_list ety elems :
    Forall (fun v => TypeOf v = ety /\ WellTyped v) elems ->
    WellTyped (ListVal ety elems)
| WT_set ety elems :
    Forall (fun v => TypeOf v = ety /\ WellTyped v) elems ->
    WellTyped (SetVal ety elems)
| WT_map ety elems :
    NoDup elems.*1 ->
    Forall (fun kv => TypeOf kv.2 = ety /\ WellTyped kv.2) elems ->
    WellTyped (MapVal ety elems)
| WT_tuple elems :
    Forall WellTyped elems ->
    WellTyped (TupleVal elems).

End cty.

(** ** Package hclwrite: the body of a file or block

    A body is the sequence of its attributes and blocks.  A block created
    by [AppendNewBlock] is the last item of its parent while the caller
    fills it, so filling it in place is the same as appending it with its
    final body. *)
Module hclwrite.

Inductive Item :=
| Attribute (name : string) (val : cty.Value)
| Block (typeName : string) (labels : list string) (body : list Item).

Abbreviation Body := (list Item).

Definition ItemName (it : Item) : string :=
  match it with
  | Attribute name _ => name
  | Block typeName _ _ => typeName
  end.

(** The block [AppendNewBlock] adds to [body], once its own body is [sub]. *)
Definition AppendNewBlock (typeName : string) (labels : list string)
    (sub : Body) (body : Body) : Body :=
  body ++ [Block typeName labels sub].

(** [SetAttributeValue] replaces the value of the first attribute of that
    name, or appends a new attribute when there is none. *)
Fixpoint SetAttributeValue (name : string) (val : cty.Value) (body : Body) : Body :=
  match body with
  | [] => [Attribute name val]
  | Attribute n v :: rest =>
      if String.eqb n name then Attribute n val :: rest
      else Attribute n v :: SetAttributeValue name val rest
  | Block t ls b :: rest => Block t ls b :: SetAttributeValue name val rest
  end.

End hclwrite.

(** ** Package regexp (the fragment the asset-name patterns use) *)
Module regexp.

Inductive Regexp :=
| NoMatch
| EmptyMatch
| Literal (c : Ascii.ascii)
| NotLiteral (c : Ascii.ascii)
| Concat (r1 r2 : Regexp)
| Alternate (r1 r2 : Regexp)
| Star (r : Regexp)
| Plus (r : Regexp)
| Capture (name : string) (r : Regexp).

Fixpoint nullable (r : Regexp) : bool :=
  match r with
  | NoMatch | Literal _ | NotLiteral _ => false
  | EmptyMatch | Star _ => true
  | Concat r1 r2 => nullable r1 && nullable r2
  | Alternate r1 r2 => nullable r1 || nullable r2
  | Plus r | Capture _ r => nullable r
  end.

(** Brzozowski derivative of [r] by the character [c]. *)
Fixpoint deriv (c : Ascii.ascii) (r : Regexp) : Regexp :=
  match r with
  | NoMatch | EmptyMatch => NoMatch
  | Literal c' => if Ascii.eqb c c' then EmptyMatch else NoMatch
  | NotLiteral c' => if Ascii.eqb c c' then NoMatch else EmptyMatch
  | Concat r1 r2 =>
      if nullable r1 then Alternate (Concat (deriv c r1) r2) (deriv c r2)
      else Concat (deriv c r1) r2
  | Alternate r1 r2 => Alternate (deriv c r1) (deriv c r2)
  | Star r' => Concat (deriv c r') (Star r')
  | Plus r' => Concat (deriv c r') (Star r')
  | Capture _ r' => deriv c r'
  end.

(** Some prefix of [s] is matched by [r]. *)
Fixpoint matchPrefix (r : Regexp) (s : string) : bool :=
  nullable r ||
  match s with
  | EmptyString => false
  | String c s' => matchPrefix (deriv c r) s'
  end.

(** [MatchString] reports whether [s] contains any match of [r]. *)
Fixpoint MatchString (r : Regexp) (s : string) : bool :=
  matchPrefix r s ||
  match s with
  | EmptyString => false
  | String _ s' => MatchString r s'
  end.

(** The pattern matching exactly the text [s]. *)
Fixpoint Quote (s : string) : Regexp :=
  match s with
  | EmptyString => EmptyMatch
  | String c s' => Concat (Literal c) (Quote s')
  end.

End regexp.

(** ** Package schema: the values a flattened resource map can hold

    The dynamic types [normalizeFlattenedMap] switches on.  A [*schema.Set]
    (a pointer that is not nil) is represented by the slice its [List]
    method returns.  [Slice] and [StringMap] are the values of type
    [[]interface{}] and [map[string]interface{}] that are not nil,
    [NilSlice] and [NilStringMap] the nil ones.  [Other] is a value of any
    other dynamic type that holds values, such as a
    [[]map[string]interface{}], with the name of its type and the values
    it holds. *)
Module schema.

Inductive any :=
| Nil
| GoString (s : string)
| GoInt (n : Z)
| GoBool (b : bool)
| Slice (arr : list any)
| StringMap (mp : gmap string any)
| Set_ (list_ : list any)
| NilSlice
| NilStringMap
| Other (typeName : string) (held : list any).

Definition List (items : list any) : list any := items.

End schema.

(** ** Package caiasset *)
Module caiasset.

Record Asset := {
  Name : string;
  Type_ : string;
  Data : schema.any;
}.

End caiasset.

(** ** Package common *)

Record HCLResourceBlock := {
  Labels : list string;
  Value : cty.Value;
}.

(** The [Converter] interface: its one method [Convert]. *)
Record Converter := {
  ConverterConvert : list caiasset.Asset -> list HCLResourceBlock * option error;
}.

(** *** normalizeFlattenedMap

    The loop over [mp] stores the normalized value of each key in a fresh
    map; whatever the order of the iteration, that map is [mp] with every
    value normalized ([StringMap_loop] below).  The slice and the map
    that are built are never nil, also when the one given is; a value of
    another type goes through the [default] case as it is. *)

Fixpoint normalizeFlattenedMap (obj : schema.any) : schema.any :=
  match obj with
  | schema.Slice arr => schema.Slice (normalizeFlattenedMap <$> arr)
  | schema.NilSlice => schema.Slice []
  | schema.StringMap mp => schema.StringMap (normalizeFlattenedMap <$> mp)
  | schema.NilStringMap => schema.StringMap ∅
  | schema.Set_ items => schema.Slice (schema.List items)
  | _ => obj
  end.

(** Does the tree hold a [*schema.Set] at some depth? *)
Fixpoint containsSet (obj : schema.any) : bool :=
  match obj with
  | schema.Slice arr => existsb containsSet arr
  | schema.StringMap mp => map_fold (fun _ v acc => containsSet v || acc) false mp
  | schema.Set_ _ => true
  | schema.Other _ held => existsb containsSet held
  | _ => false
  end.

(** No set of the tree holds a set, at any depth of its items. *)
Fixpoint setsHoldNoSets (obj : schema.any) : bool :=
  match obj with
  | schema.Slice arr => forallb setsHoldNoSets arr
  | schema.StringMap mp =>
      map_fold (fun _ v acc => setsHoldNoSets v && acc) true mp
  | schema.Set_ items => negb (existsb containsSet items)
  | schema.Other _ held => forallb setsHoldNoSets held
  | _ => true
  end.

(** No set of the tree is held by a value of another type, which the
    type switch does not look into. *)
Fixpoint noHiddenSets (obj : schema.any) : bool :=
  match obj with
  | schema.Slice arr => forallb noHiddenSets arr
  | schema.StringMap mp =>
      map_fold (fun _ v acc => noHiddenSets v && acc) true mp
  | schema.Set_ items => forallb noHiddenSets items
  | schema.Other _ held => negb (existsb containsSet held)
  | _ => true
  end.

(** Does the normalizer, going through slices, maps and the items of
    sets, come upon a nil slice or a nil map? *)
Fixpoint reachesNil (obj : schema.any) : bool :=
  match obj with
  | schema.NilSlice | schema.NilStringMap => true
  | schema.Slice arr => existsb reachesNil arr
  | schema.StringMap mp => map_fold (fun _ v acc => reachesNil v || acc) false mp
  | schema.Set_ items => existsb reachesNil items
  | _ => false
  end.

(** No nil slice or map is come upon in the items of a set. *)
Fixpoint setsReachNoNil (obj : schema.any) : bool :=
  match obj with
  | schema.Slice arr => forallb setsReachNoNil arr
  | schema.StringMap mp =>
      map_fold (fun _ v acc => setsReachNoNil v && acc) true mp
  | schema.Set_ items => negb (existsb reachesNil items)
  | _ => true
  end.

(** *** hclWriteBlock

    The body is threaded through: the result is the body after the call
    (partly written when the call fails) and the error returned. *)

Definition Errorf_expect_object (friendlyName : string) : error :=
  "expect object type only, but type = " +:+ friendlyName.

(** The loop over [listIterator]: one block named [objKey] per element. *)
Definition writeElementBlocks
    (write : cty.Value -> hclwrite.Body -> hclwrite.Body * option error)
    (objKey : string) :=
  fix listIterator (elems : list cty.Value) (body : hclwrite.Body)
      : hclwrite.Body * option error :=
    match elems with
    | [] => (body, None)
    | listVal :: elems' =>
        let '(sub, err) := write listVal [] in
        let body := hclwrite.AppendNewBlock objKey [] sub body in
        match err with
        | Some e => (body, Some e)
        | None => listIterator elems' body
        end
    end.

Definition elementTypeIsObject (t : cty.Ty) : bool :=
  match cty.ElementType t with
  | Some ety => cty.IsObjectType ety
  | None => false
  end.

Definition isEmptyString (objVal : cty.Value) : bool :=
  String.eqb (cty.FriendlyName (cty.TypeOf objVal)) "string"
  && bool_decide (cty.AsString objVal = Some EmptyString).

(** One turn of the loop over the object's attributes. *)
Definition writeAttribute
    (write : cty.Value -> hclwrite.Body -> hclwrite.Body * option error)
    (objKey : string) (objVal : cty.Value) (body : hclwrite.Body)
    : hclwrite.Body * option error :=
  if cty.IsNull objVal then (body, None)
  else
    let objValType := cty.TypeOf objVal in
    if cty.IsObjectType objValType then
      let '(sub, err) := write objVal [] in
      (hclwrite.AppendNewBlock objKey [] sub body, err)
    else if cty.IsCollectionType objValType && (cty.LengthInt objVal =? 0) then
      (body, None)
    else if cty.IsCollectionType objValType
            && negb (cty.IsMapType objValType)
            && elementTypeIsObject objValType then
      match objVal with
      | cty.ListVal _ elems | cty.SetVal _ elems =>
          writeElementBlocks write objKey elems body
      | _ => (body, None) (* no other non-null value has such a type *)
      end
    else if isEmptyString objVal then (body, None)
    else (hclwrite.SetAttributeValue objKey objVal body, None).

(** The loop [for it.Next()] over the attributes of the object. *)
Definition writeAttributes
    (write : cty.Value -> hclwrite.Body -> hclwrite.Body * option error) :=
  fix it (attrs : list (string * cty.Value)) (body : hclwrite.Body)
      : hclwrite.Body * option error :=
    match attrs with
    | [] => (body, None)
    | (objKey, objVal) :: attrs' =>
        let '(body, err) := writeAttribute write objKey objVal body in
        match err with
        | Some e => (body, Some e)
        | None => it attrs' body
        end
    end.

Fixpoint hclWriteBlock (val : cty.Value) (body : hclwrite.Body) {struct val}
    : hclwrite.Body * option error :=
  if cty.IsNull val then (body, None)
  else if negb (cty.IsObjectType (cty.TypeOf val)) then
    (body, Some (Errorf_expect_object (cty.FriendlyName (cty.TypeOf val))))
  else
    match val with
    | cty.ObjectVal attrs => writeAttributes hclWriteBlock attrs body
    | _ => (body, None)
    end.

(** *** Convert *)

(** The first loop: the assets of each converter name, in input order.
    Indexing [groups] at a missing name yields the nil slice. *)
Definition groupAssets (assets : list caiasset.Asset)
    (converterNames : gmap string string) : gmap string (list caiasset.Asset) :=
  foldl (fun groups asset =>
           match converterNames !! caiasset.Type_ asset with
           | None => groups
           | Some name => <[name := default [] (groups !! name) ++ [asset]]> groups
           end) ∅ assets.

(** Go leaves the order of [range] over a map unspecified: any
    enumeration of the entries may be the one a run follows. *)
Definition RangeOf {V} (m : gmap string V) (order : list (string * V)) : Prop :=
  order ≡ₚ map_to_list m.

(** The loop over the items a converter returned. *)
Fixpoint writeResourceBlocks (items : list HCLResourceBlock)
    (rootBody : hclwrite.Body) : hclwrite.Body * option error :=
  match items with
  | [] => (rootBody, None)
  | resourceBlock :: items' =>
      let '(sub, err) := hclWriteBlock (Value resourceBlock) [] in
      let rootBody :=
        hclwrite.AppendNewBlock "resource" (Labels resourceBlock) sub rootBody in
      match err with
      | Some e => (rootBody, Some e)
      | None => writeResourceBlocks items' rootBody
      end
  end.

(** The second loop, following the enumeration [order] of [groups].  The
    test of [err] after the inner loop is not reached with an error: [err]
    is nil once the items are being written. *)
Fixpoint convertGroups (order : list (string * list caiasset.Asset))
    (converterMap : gmap string Converter) (rootBody : hclwrite.Body)
    : hclwrite.Body * option error :=
  match order with
  | [] => (rootBody, None)
  | (name, v) :: order' =>
      match converterMap !! name with
      | None => convertGroups order' converterMap rootBody
      | Some converter =>
          let '(items, err) := ConverterConvert converter v in
          match err with
          | Some e => (rootBody, Some e)
          | None =>
              let '(rootBody, err) := writeResourceBlocks items rootBody in
              match err with
              | Some e => (rootBody, Some e)
              | None => convertGroups order' converterMap rootBody
              end
          end
      end
  end.

Section Convert.

(** [f.Bytes()] of hclwrite and [printer.Format] of hcl. *)
Variable FileBytes : hclwrite.Body -> string.
Variable printerFormat : string -> GoResult string.

(** The run of [Convert] whose [range groups] follows [order]. *)
Definition ConvertAlong (order : list (string * list caiasset.Asset))
    (converterMap : gmap string Converter) : GoResult string :=
  let '(rootBody, err) := convertGroups order converterMap [] in
  match err with
  | Some e => (None, Some e)
  | None => printerFormat (FileBytes rootBody)
  end.

(** The results [Convert] may return once the groups are formed. *)
Definition ConvertGroups (groups : gmap string (list caiasset.Asset))
    (converterMap : gmap string Converter) (out : GoResult string) : Prop :=
  exists order, RangeOf groups order /\ ConvertAlong order converterMap = out.

Definition Convert (assets : list caiasset.Asset)
    (converterNames : gmap string string)
    (converterMap : gmap string Converter) (out : GoResult string) : Prop :=
  ConvertGroups (groupAssets assets converterNames) converterMap out.

End Convert.

(** The blocks one group adds to the file when nothing fails. *)
Definition groupBlocks (converterMap : gmap string Converter)
    (group : string * list caiasset.Asset) : hclwrite.Body :=
  match converterMap !! group.1 with
  | None => []
  | Some converter =>
      (fun resourceBlock =>
         hclwrite.Block "resource" (Labels resourceBlock)
           (hclWriteBlock (Value resourceBlock) []).1)
        <$> (ConverterConvert converter group.2).1
  end.

(** Does the group fail, in its converter or in the writer? *)
Definition groupFails (converterMap : gmap string Converter)
    (group : string * list caiasset.Asset) : bool :=
  match converterMap !! group.1 with
  | None => false
  | Some converter =>
      let '(items, err) := ConverterConvert converter group.2 in
      match err with
      | Some _ => true
      | None => bool_decide (is_Some (writeResourceBlocks items []).2)
      end
  end.

(** *** The pattern-based resolver *)

(** Modelled from the spec: [tryGetConverterNameByAssetNameRegex] is called
    by its test but is not among the sources.  The spec (4.3, step 2):
    iterate the pattern table's entries and test the resource name against
    each regular expression, accepting a match whether or not the name is
    prefixed with a source-service URL segment; the first match wins, and
    [found] is false if none matches.  The table is given as the sequence
    of entries in the order the iteration visits them, and testing a name
    is [regexp.MatchString], which looks for a match anywhere in it. *)
Fixpoint tryGetConverterNameByAssetNameRegex (name : string)
    (converterNamesPerRegex : list (regexp.Regexp * string)) : string * bool :=
  match converterNamesPerRegex with
  | [] => (EmptyString, false)
  | (nameRegex, converterName) :: rest =>
      if regexp.MatchString nameRegex name then (converterName, true)
      else tryGetConverterNameByAssetNameRegex name rest
  end.

(** A resource name behind a source-service URL segment. *)
Definition fullyQualified (service bare : string) : string :=
  "//" +:+ service +:+ "/" +:+ bare.

(** The number of nodes of a tree, the measure for induction on it. *)
Fixpoint anySize (obj : schema.any) : nat :=
  match obj with
  | schema.Slice arr => S (foldr (fun v acc => anySize v + acc) 0 arr)
  | schema.StringMap mp => S (map_fold (fun _ v acc => anySize v + acc) 0 mp)
  | schema.Set_ items => S (foldr (fun v acc => anySize v + acc) 0 items)
  | schema.Other _ held => S (foldr (fun v acc => anySize v + acc) 0 held)
  | _ => 1
  end.

(** ** Observations on a written body *)

(** The items of [body] that go by the name [key]. *)
Definition namedItems (key : string) (body : hclwrite.Body) : hclwrite.Body :=
  filter (fun it => hclwrite.ItemName it = key) body.

(** No attribute, at any depth of nested blocks, was set to null or to
    the empty string. *)
Fixpoint noNullOrEmptyAttribute (it : hclwrite.Item) : bool :=
  match it with
  | hclwrite.Attribute _ val => negb (cty.IsNull val) && negb (isEmptyString val)
  | hclwrite.Block _ _ body => forallb noNullOrEmptyAttribute body
  end.

(** Writing [val] with [write] keeps a body free of null and empty-string
    attributes. *)
Definition writesClean
    (write : cty.Value -> hclwrite.Body -> hclwrite.Body * option error)
    (val : cty.Value) : Prop :=
  forall body,
    forallb noNullOrEmptyAttribute body = true ->
    forallb noNullOrEmptyAttribute (write val body).1 = true.

(** Writing [val] with [write] succeeds when [val] is well typed and is
    null or an object. *)
Definition writesOk
    (write : cty.Value -> hclwrite.Body -> hclwrite.Body * option error)
    (val : cty.Value) : Prop :=
  cty.WellTyped val ->
  cty.IsNull val = true \/ cty.IsObjectType (cty.TypeOf val) = true ->
  forall body, (write val body).2 = None.

(** ** A plain rendering of a file, used by the sample runs *)

Definition dquote : string :=
  String (Ascii.Ascii false true false false false true false false) EmptyString.

Definition quoted (s : string) : string := dquote +:+ s +:+ dquote.

Fixpoint valueText (val : cty.Value) : string :=
  match val with
  | cty.NullVal _ => "null"
  | cty.StringVal s => quoted s
  | cty.NumberIntVal n => pretty n
  | cty.BoolVal b => if b then "true" else "false"
  | cty.ObjectVal attrs | cty.MapVal _ attrs =>
      "{" +:+ (fix entries (l : list (string * cty.Value)) : string :=
                 match l with
                 | [] => EmptyString
                 | (k, v) :: l' => k +:+ "=" +:+ valueText v +:+ ";" +:+ entries l'
                 end) attrs +:+ "}"
  | cty.ListVal _ elems | cty.SetVal _ elems | cty.TupleVal elems =>
      "[" +:+ (fix entries (l : list cty.Value) : string :=
                 match l with
                 | [] => EmptyString
                 | v :: l' => valueText v +:+ "," +:+ entries l'
                 end) elems +:+ "]"
  end.

Fixpoint itemText (it : hclwrite.Item) : string :=
  match it with
  | hclwrite.Attribute name val => name +:+ " = " +:+ valueText val +:+ ";"
  | hclwrite.Block typeName labels body =>
      typeName +:+ foldr (fun l acc => " " +:+ quoted l +:+ acc) EmptyString labels
      +:+ " {" +:+ foldr (fun it acc => itemText it +:+ acc) EmptyString body
      +:+ "}"
  end.

Definition plainBytes (body : hclwrite.Body) : string :=
  foldr (fun it acc => itemText it +:+ acc) EmptyString body.

Definition formatUnchanged (src : string) : GoResult string := (Some src, None).

(** ** Sample inputs *)

(** A flattened disk whose set-typed field holds objects that have a
    set-typed field of their own. *)
Definition nestedSets : schema.any :=
  schema.StringMap {[
    "disk" := schema.Set_ [
      schema.StringMap {[ "tags" := schema.Set_ [schema.GoString "a"] ]}
    ]
  ]}.

(** An instance with two disks, a list of objects. *)
Definition diskType : cty.Ty := cty.TyObject [("device", cty.TyString)].

Definition sampleDisks : cty.Value :=
  cty.ListVal diskType
    [cty.ObjectVal [("device", cty.StringVal "sda")];
     cty.ObjectVal [("device", cty.StringVal "sdb")]].

Definition sampleInstance : cty.Value :=
  cty.ObjectVal [("disk", sampleDisks); ("name", cty.StringVal "vm")].

(** A converter that turns each asset into one block of the given kind,
    labelled with the asset's name. *)
Definition blockPerAsset (kind : string) : Converter :=
  {| ConverterConvert assets :=
       ((fun a =>
           {| Labels := [kind; caiasset.Name a];
              Value := cty.ObjectVal [("name", cty.StringVal (caiasset.Name a))] |})
          <$> assets, None) |}.

(** A converter that always fails. *)
Definition failingConverter (msg : error) : Converter :=
  {| ConverterConvert _ := ([], Some msg) |}.

Definition instanceAsset : caiasset.Asset :=
  {| caiasset.Name := "vm"; caiasset.Type_ := "compute.Instance";
     caiasset.Data := schema.Nil |}.

Definition projectAsset : caiasset.Asset :=
  {| caiasset.Name := "prj"; caiasset.Type_ := "resourcemanager.Project";
     caiasset.Data := schema.Nil |}.

Definition bucketAsset : caiasset.Asset :=
  {| caiasset.Name := "bkt"; caiasset.Type_ := "storage.Bucket";
     caiasset.Data := schema.Nil |}.

Definition sampleAssets : list caiasset.Asset := [instanceAsset; projectAsset].

Definition sampleNames : gmap string string :=
  {[ "compute.Instance" := "google_compute_instance";
     "resourcemanager.Project" := "google_project" ]}.

Definition sampleConverters : gmap string Converter :=
  {[ "google_compute_instance" := blockPerAsset "google_compute_instance";
     "google_project" := blockPerAsset "google_project" ]}.

Definition instanceFirst : list (string * list caiasset.Asset) :=
  [("google_compute_instance", [instanceAsset]); ("google_project", [projectAsset])].

Definition projectFirst : list (string * list caiasset.Asset) :=
  [("google_project", [projectAsset]); ("google_compute_instance", [instanceAsset])].

(** The sample converters, with the one for projects failing. *)
Definition projectsFailing : gmap string Converter :=
  {[ "google_compute_instance" := blockPerAsset "google_compute_instance";
     "google_project" := failingConverter "project conversion failed" ]}.

(** The sample names, with buckets resolved to a name no converter has. *)
Definition namesWithBucket : gmap string string :=
  <["storage.Bucket" := "google_storage_bucket"]> sampleNames.

(** The groups of the batch with a bucket, the buckets visited first. *)
Definition bucketFirst : list (string * list caiasset.Asset) :=
  [("google_storage_bucket", [bucketAsset]);
   ("google_compute_instance", [instanceAsset]);
   ("google_project", [projectAsset])].

(** The two patterns of [TestTryGetConverterNameByAssetNameRegex]. *)
Definition segment (name : string) : regexp.Regexp :=
  regexp.Capture name (regexp.Plus (regexp.NotLiteral (Ascii.ascii_of_nat 47))).

Definition forwardingRuleRegex : regexp.Regexp :=
  regexp.Concat (regexp.Quote "projects/")
    (regexp.Concat (segment "project")
       (regexp.Concat (regexp.Quote "/regions/")
          (regexp.Concat (segment "region") (regexp.Quote "/forwardingRules")))).

Definition globalForwardingRuleRegex : regexp.Regexp :=
  regexp.Concat (regexp.Quote "projects/")
    (regexp.Concat (segment "project") (regexp.Quote "/global/forwardingRules")).

Definition converterNamesPerRegex : list (regexp.Regexp * string) :=
  [(forwardingRuleRegex, "google_compute_forwarding_rule");
   (globalForwardingRuleRegex, "compute_global_forwarding_rule")].

(** ** Package strings (with the separator a single character) *)
Module strings.

(** [Split s sep]: the pieces of [s] between the occurrences of [sep];
    a string without [sep], the empty one too, is its one piece. *)
Fixpoint Split (s : string) (sep : Ascii.ascii) : list string :=
  match s with
  | EmptyString => [EmptyString]
  | String c s' =>
      if Ascii.eqb c sep then EmptyString :: Split s' sep
      else match Split s' sep with
           | piece :: pieces => String c piece :: pieces
           | [] => [String c EmptyString]
           end
  end.

Fixpoint Join (elems : list string) (sep : Ascii.ascii) : string :=
  match elems with
  | [] => EmptyString
  | [elem] => elem
  | elem :: elems' => elem +:+ String sep (Join elems' sep)
  end.

Fixpoint ContainsRune (s : string) (r : Ascii.ascii) : bool :=
  match s with
  | EmptyString => false
  | String c s' => Ascii.eqb c r || ContainsRune s' r
  end.

(** [HasSuffix s suffix]: [s] is long enough and ends with [suffix]. *)
Definition HasSuffix (s suffix : string) : bool :=
  (String.length suffix <=? String.length s)
  && String.eqb
       (String.substring (String.length s - String.length suffix)
          (String.length suffix) s)
       suffix.

End strings.

Definition slash : Ascii.ascii := Ascii.ascii_of_nat 47.

(** *** ParseFieldValue *)

Definition ParseFieldValue (url : string) (name : string) : string :=
  let fragments := strings.Split url slash in
  (fix range (items : list string) (ix : nat) : string :=
     match items with
     | [] => EmptyString
     | item :: items' =>
         if String.eqb item name && (ix + 1 <? length fragments)
         then default EmptyString (fragments !! (ix + 1))
         else range items' (S ix)
     end) fragments 0.

(** The value after the first [name] that has one, read off the fragments. *)
Fixpoint valueAfter (name : string) (fragments : list string) : string :=
  match fragments with
  | item :: ((value :: _) as fragments') =>
      if String.eqb item name then value else valueAfter name fragments'
  | _ => EmptyString
  end.

(** How deep sets are nested in sets: 0 when the tree holds no set. *)
Fixpoint setDepth (obj : schema.any) : nat :=
  match obj with
  | schema.Slice arr => foldr (fun v acc => setDepth v `max` acc) 0 arr
  | schema.StringMap mp => map_fold (fun _ v acc => setDepth v `max` acc) 0 mp
  | schema.Set_ items => S (foldr (fun v acc => setDepth v `max` acc) 0 items)
  | schema.Other _ held => foldr (fun v acc => setDepth v `max` acc) 0 held
  | _ => 0
  end.

(** A flattened instance without sets, and one whose sets hold no sets. *)
Definition setFreeTree : schema.any :=
  schema.StringMap {[
    "name" := schema.GoString "vm";
    "disk" := schema.Slice [schema.StringMap {[ "size" := schema.GoInt 10 ]}]
  ]}.

(** A slice of maps of type [[]map[string]interface{}] with a set in it. *)
Definition typedSliceWithSet : schema.any :=
  schema.Other "[]map[string]interface {}"
    [schema.StringMap {[ "tags" := schema.Set_ [schema.GoString "a"] ]}].

Definition flatSets : schema.any :=
  schema.StringMap {[
    "name" := schema.GoString "vm";
    "tags" := schema.Set_ [schema.GoString "a"; schema.GoString "b"]
  ]}.

(** What the attribute [objKey] of an object adds to an empty body. *)
Definition attributeItems (objKey : string) (objVal : cty.Value) : hclwrite.Body :=
  (writeAttribute hclWriteBlock objKey objVal []).1.

(** An instance with an object, a map, a string, an empty list and a list
    of strings. *)
Definition richInstance : cty.Value :=
  cty.ObjectVal
    [("boot_disk", cty.ObjectVal [("device", cty.StringVal "sda")]);
     ("labels", cty.MapVal cty.TyString [("env", cty.StringVal "prod")]);
     ("name", cty.StringVal "vm");
     ("tags", cty.ListVal cty.TyString []);
     ("zones", cty.ListVal cty.TyString [cty.StringVal "a"; cty.StringVal "b"])].

(** *** CreateConverterMap

    [provider.ResourcesMap] maps a resource name to a pointer to its
    resource; reading [Schema] through the nil pointer that a missing name
    yields panics, which is [None] here.  The schema type is left open. *)

Record Resource (SchemaMap : Type) := {
  Schema : SchemaMap;
}.
Arguments Schema {SchemaMap} _.

Definition ConverterFactory (SchemaMap : Type) : Type :=
  string -> SchemaMap -> Converter.

(** The run of [CreateConverterMap] whose [range converterFactories]
    follows [order]. *)
Definition CreateConverterMapAlong {SchemaMap : Type}
    (ResourcesMap : gmap string (Resource SchemaMap))
    (order : list (string * ConverterFactory SchemaMap))
    : option (gmap string Converter) :=
  foldl (fun result entry =>
           match result, ResourcesMap !! entry.1 with
           | Some result, Some resource =>
               Some (<[entry.1 := entry.2 entry.1 (Schema resource)]> result)
           | _, _ => None
           end) (Some ∅) order.

(** A provider that knows projects only, and two factories. *)
Definition projectsOnly : gmap string (Resource unit) :=
  {[ "google_project" := {| Schema := tt |} ]}.

Definition projectFactory : gmap string (ConverterFactory unit) :=
  {[ "google_project" := fun name _ => blockPerAsset name ]}.

Definition projectAndBucketFactories : gmap string (ConverterFactory unit) :=
  {[ "google_project" := fun name _ => blockPerAsset name;
     "google_storage_bucket" := fun name _ => blockPerAsset name ]}.

(** ** The custom diff of google_spanner_database

    The two lists are what [diff.GetChange("ddl")] returns; [ForceNew] is
    the method of [diff], which may fail.  The first component of the
    result lists the keys [ForceNew] was called on; [None] is a panic. *)

Definition space : Ascii.ascii := Ascii.ascii_of_nat 32.

(** [%v] of a slice of strings. *)
Definition sprintSlice (elems : list string) : string :=
  "[" +:+ strings.Join elems space +:+ "]".

Definition ddlForceNewError (oldDdls newDdls : list string) : error :=
  "ForceNew failed for ddl, old - " +:+ sprintSlice oldDdls
  +:+ " and new - " +:+ sprintSlice newDdls.

Definition forceNewDdl (ForceNew : string -> option error)
    (oldDdls newDdls : list string) : list string * option error :=
  match ForceNew "ddl" with
  | Some _ => (["ddl"], Some (ddlForceNewError oldDdls newDdls))
  | None => (["ddl"], None)
  end.

Definition resourceSpannerDBDdlCustomDiffFunc
    (oldDdls newDdls : list string) (ForceNew : string -> option error)
    : option (list string * option error) :=
  if length newDdls <? length oldDdls then
    Some (forceNewDdl ForceNew oldDdls newDdls)
  else
    (fix range (i : nat) (olds : list string)
         : option (list string * option error) :=
       match olds with
       | [] => Some ([], None)
       | oldDdl :: olds' =>
           match newDdls !! i with
           | None => None
           | Some newDdl =>
               if negb (String.eqb newDdl oldDdl)
               then Some (forceNewDdl ForceNew oldDdls newDdls)
               else range (S i) olds'
           end
       end) 0 oldDdls.

(** The run of [resourceSpannerDBVirtualUpdate] whose [range
    resourceSchema] follows [order]; [HasChange] is the method of [d]. *)
Definition resourceSpannerDBVirtualUpdateAlong {SchemaT : Type}
    (HasChange : string -> bool) (order : list (string * SchemaT)) : bool :=
  if HasChange "deletion_protection" then
    (fix range (entries : list (string * SchemaT)) : bool :=
       match entries with
       | [] => true
       | (field, _) :: entries' =>
           if String.eqb field "deletion_protection" then range entries'
           else if HasChange field then false
           else range entries'
       end) order
  else false.

Definition spannerSchema : gmap string unit :=
  {[ "ddl" := tt; "deletion_protection" := tt; "name" := tt ]}.

Definition onlyProtectionChanged (field : string) : bool :=
  String.eqb field "deletion_protection".

(** ** The base paths of a test configuration

    The fields of [Config] that [configureTestBasePaths] assigns. *)
Record Config := {
  ComputeBasePath : string;
  CloudBillingBasePath : string;
  ComposerBasePath : string;
  ContainerBasePath : string;
  DataprocBasePath : string;
  DataflowBasePath : string;
  IamCredentialsBasePath : string;
  ResourceManagerV3BasePath : string;
  IAMBasePath : string;
  ServiceNetworkingBasePath : string;
  BigQueryBasePath : string;
  StorageTransferBasePath : string;
  BigtableAdminBasePath : string;
}.

Definition configureTestBasePaths (c : Config) (url : string) : Config :=
  let url := if negb (strings.HasSuffix url "/") then url +:+ "/" else url in
  {| ComputeBasePath := url;
     CloudBillingBasePath := url;
     ComposerBasePath := url;
     ContainerBasePath := url;
     DataprocBasePath := url;
     DataflowBasePath := url;
     IamCredentialsBasePath := url;
     ResourceManagerV3BasePath := url;
     IAMBasePath := url;
     ServiceNetworkingBasePath := url;
     BigQueryBasePath := url;
     StorageTransferBasePath := url;
     BigtableAdminBasePath := url |}.

(** * Properties *)

(** ** normalizeFlattenedMap *)

Section any_induction.

Lemma anySize_slice_elem (arr : list schema.any) v :
  v ∈ arr -> anySize v <= foldr (fun v acc => anySize v + acc) 0 arr.
Proof.
  induction 1 as [v arr|v w arr _ IH]; simpl; lia.
Qed.

Lemma anySize_map_elem (mp : gmap string schema.any) k v :
  mp !! k = Some v ->
  anySize v <= map_fold (fun _ v acc => anySize v + acc) 0 mp.
Proof.
  intros Hk.
  rewrite (map_fold_delete_L _ _ k v mp); [lia | intros; lia | done].
Qed.

Variable P : schema.any -> Prop.
Hypothesis P_nil : P schema.Nil.
Hypothesis P_string : forall s, P (schema.GoString s).
Hypothesis P_int : forall n, P (schema.GoInt n).
Hypothesis P_bool : forall b, P (schema.GoBool b).
Hypothesis P_slice : forall arr, Forall P arr -> P (schema.Slice arr).
Hypothesis P_map :
  forall mp, map_Forall (fun _ => P) mp -> P (schema.StringMap mp).
Hypothesis P_set : forall items, Forall P items -> P (schema.Set_ items).
Hypothesis P_nilslice : P schema.NilSlice.
Hypothesis P_nilmap : P schema.NilStringMap.
Hypothesis P_other :
  forall typeName held, Forall P held -> P (schema.Other typeName held).

Lemma any_ind_nested obj : P obj.
Proof.
  remember (anySize obj) as n eqn:Hn.
  revert obj Hn.
  induction n as [n IH] using lt_wf_ind.
  intros [| | | |arr|mp|items| | |typeName held] ->; auto.
  - apply P_slice, Forall_forall. intros v Hv.
    apply (IH (anySize v)); [|done].
    pose proof (anySize_slice_elem _ _ Hv). simpl. lia.
  - apply P_map. intros k v Hk.
    apply (IH (anySize v)); [|done].
    pose proof (anySize_map_elem _ _ _ Hk). simpl. lia.
  - apply P_set, Forall_forall. intros v Hv.
    apply (IH (anySize v)); [|done].
    pose proof (anySize_slice_elem _ _ Hv). simpl. lia.
  - apply P_other, Forall_forall. intros v Hv.
    apply (IH (anySize v)); [|done].
    pose proof (anySize_slice_elem _ _ Hv). simpl. lia.
Qed.

End any_induction.

Lemma map_fold_orb_false {A} (f : A -> bool) (mp : gmap string A) :
  map_fold (fun _ v acc => f v || acc) false mp = false
  <-> map_Forall (fun _ v => f v = false) mp.
Proof.
  induction mp as [|k v mp Hk IH] using map_ind.
  - rewrite map_fold_empty. split; [intros _; apply map_Forall_empty | done].
  - rewrite map_fold_insert_L; [| |done].
    + rewrite orb_false_iff, IH, map_Forall_insert by done. tauto.
    + intros. by rewrite !orb_assoc, (orb_comm (f z1)).
Qed.

Lemma existsb_false_Forall {A} (f : A -> bool) (l : list A) :
  existsb f l = false <-> Forall (fun v => f v = false) l.
Proof.
  induction l as [|v l IH]; simpl.
  - split; [constructor | done].
  - rewrite orb_false_iff, IH, Forall_cons. tauto.
Qed.

(** Filling a fresh map key by key, in any order of iteration over [mp],
    builds [mp] with [f] applied to every value. *)
Lemma StringMap_loop {A B} (f : A -> B) (mp : gmap string A) order :
  RangeOf mp order ->
  foldl (fun newMap kv => <[kv.1 := f kv.2]> newMap) ∅ order = f <$> mp.
Proof.
  unfold RangeOf. intros Horder.
  assert (forall (l : list (string * A)) (acc : gmap string B),
            foldl (fun newMap kv => <[kv.1 := f kv.2]> newMap) acc l
            = foldr (fun kv newMap => <[kv.1 := f kv.2]> newMap) acc (reverse l))
    as Hfold.
  { induction l as [|kv l IH]; intros acc; [done|].
    simpl. by rewrite IH, reverse_cons, foldr_app. }
  assert (forall l : list (string * A),
            foldr (fun kv newMap => <[kv.1 := f kv.2]> newMap) ∅ l
            = f <$> (list_to_map l : gmap string A)) as Hlist.
  { induction l as [|[k v] l IH]; simpl.
    - by rewrite fmap_empty.
    - by rewrite IH, fmap_insert. }
  rewrite Hfold, Hlist. f_equal.
  rewrite <- (list_to_map_to_list mp).
  apply list_to_map_proper.
  - apply (NoDup_Permutation_proper (map_to_list mp).*1).
    + by rewrite reverse_Permutation, Horder.
    + apply NoDup_fst_map_to_list.
  - by rewrite reverse_Permutation.
Qed.

Lemma forallb_true_Forall {A} (f : A -> bool) (l : list A) :
  forallb f l = true <-> Forall (fun v => f v = true) l.
Proof.
  induction l as [|v l IH]; simpl.
  - split; [constructor | done].
  - rewrite andb_true_iff, IH, Forall_cons. tauto.
Qed.

Lemma map_fold_andb_true {A} (f : A -> bool) (mp : gmap string A) :
  map_fold (fun _ v acc => f v && acc) true mp = true
  <-> map_Forall (fun _ v => f v = true) mp.
Proof.
  induction mp as [|k v mp Hk IH] using map_ind.
  - rewrite map_fold_empty. split; [intros _; apply map_Forall_empty | done].
  - rewrite map_fold_insert_L; [| |done].
    + rewrite andb_true_iff, IH, map_Forall_insert by done. tauto.
    + intros. by rewrite !andb_assoc, (andb_comm (f z1)).
Qed.

(** A tree without sets, in which the normalizer comes upon no nil slice
    or map, is left as it is. *)
Lemma normalizeFlattenedMap_without_sets obj :
  containsSet obj = false ->
  reachesNil obj = false ->
  normalizeFlattenedMap obj = obj.
Proof.
  induction obj as [| | | |arr IH|mp IH|items _| | |typeName held _]
    using any_ind_nested; simpl; try done.
  - rewrite !existsb_false_Forall. intros Hsets Hnil. f_equal.
    induction arr as [|v arr IHarr]; [done|].
    inversion IH; inversion Hsets; inversion Hnil; subst. simpl. f_equal; auto.
  - rewrite !map_fold_orb_false. intros Hsets Hnil. f_equal.
    apply map_eq. intros k. rewrite lookup_fmap.
    destruct (mp !! k) as [v|] eqn:Hk; [|done]. simpl. f_equal.
    apply (IH k v Hk); [apply (Hsets k v Hk)|apply (Hnil k v Hk)].
Qed.

(** Where no set holds a set and none is held by a value of another type,
    the normalizer does remove every set. *)
Lemma normalizeFlattenedMap_removes_flat_sets obj :
  setsHoldNoSets obj = true ->
  noHiddenSets obj = true ->
  containsSet (normalizeFlattenedMap obj) = false.
Proof.
  induction obj as [| | | |arr IH|mp IH|items _| | |typeName held _]
    using any_ind_nested; simpl; try done.
  - rewrite !forallb_true_Forall. intros Hflat Hseen.
    apply existsb_false_Forall, Forall_fmap, Forall_forall.
    intros v Hv. rewrite Forall_forall in IH, Hflat, Hseen.
    by apply (IH v Hv); [apply Hflat|apply Hseen].
  - rewrite !map_fold_andb_true, map_fold_orb_false. intros Hflat Hseen.
    apply map_Forall_fmap. intros k v Hk.
    by apply (IH k v Hk); [apply (Hflat k v Hk)|apply (Hseen k v Hk)].
  - unfold schema.List. by intros ?%negb_true_iff.
  - by intros _ ?%negb_true_iff.
Qed.

(** After a pass the normalizer comes upon no nil slice or map, unless
    one was in the items of a set. *)
Lemma reachesNil_after_pass obj :
  setsReachNoNil obj = true -> reachesNil (normalizeFlattenedMap obj) = false.
Proof.
  induction obj as [| | | |arr IH|mp IH|items _| | |typeName held _]
    using any_ind_nested; simpl; try done.
  - rewrite forallb_true_Forall. intros Hall.
    apply existsb_false_Forall, Forall_fmap, Forall_forall.
    intros v Hv. rewrite Forall_forall in IH, Hall. by apply (IH v Hv), Hall.
  - rewrite map_fold_andb_true, map_fold_orb_false. intros Hall.
    apply map_Forall_fmap. intros k v Hk. by apply (IH k v Hk), (Hall k v Hk).
  - unfold schema.List. by intros ?%negb_true_iff.
Qed.

(** There the normalizer is idempotent. *)
Lemma normalizeFlattenedMap_idempotent_flat obj :
  setsHoldNoSets obj = true ->
  noHiddenSets obj = true ->
  setsReachNoNil obj = true ->
  normalizeFlattenedMap (normalizeFlattenedMap obj) = normalizeFlattenedMap obj.
Proof.
  intros Hflat Hseen Hnil. apply normalizeFlattenedMap_without_sets.
  - by apply normalizeFlattenedMap_removes_flat_sets.
  - by apply reachesNil_after_pass.
Qed.

(** C2, at a tree the flatteners can produce: the list a set is turned
    into is returned without being normalized itself, so a set nested in
    a set is still there in the result. *)
Theorem normalizeFlattenedMap_keeps_nested_set :
  normalizeFlattenedMap nestedSets
  = schema.StringMap {[
      "disk" := schema.Slice [
        schema.StringMap {[ "tags" := schema.Set_ [schema.GoString "a"] ]}
      ]
    ]}
  /\ containsSet (normalizeFlattenedMap nestedSets) = true.
Proof.
  split.
  - unfold nestedSets. simpl. by rewrite map_fmap_singleton.
  - vm_compute. reflexivity.
Qed.

(** C8, at the same tree: normalizing the result once more changes it
    again, so the normalizer is not idempotent there. *)
Theorem normalizeFlattenedMap_twice_differs :
  normalizeFlattenedMap (normalizeFlattenedMap nestedSets)
  <> normalizeFlattenedMap nestedSets.
Proof.
  intros Heq. apply (f_equal containsSet) in Heq.
  vm_compute in Heq. discriminate.
Qed.

(** ** hclWriteBlock *)

Section Value_induction.

Variable P : cty.Value -> Prop.
Hypothesis P_null : forall ty, P (cty.NullVal ty).
Hypothesis P_string : forall s, P (cty.StringVal s).
Hypothesis P_number : forall n, P (cty.NumberIntVal n).
Hypothesis P_bool : forall b, P (cty.BoolVal b).
Hypothesis P_object :
  forall attrs, Forall (fun kv => P kv.2) attrs -> P (cty.ObjectVal attrs).
Hypothesis P_list : forall ety elems, Forall P elems -> P (cty.ListVal ety elems).
Hypothesis P_set : forall ety elems, Forall P elems -> P (cty.SetVal ety elems).
Hypothesis P_map :
  forall ety elems, Forall (fun kv => P kv.2) elems -> P (cty.MapVal ety elems).
Hypothesis P_tuple : forall elems, Forall P elems -> P (cty.TupleVal elems).

Lemma Value_ind_nested : forall val, P val.
Proof.
  fix IH 1.
  intros [ty|s|n|b|attrs|ety elems|ety elems|ety elems|elems].
  - apply P_null.
  - apply P_string.
  - apply P_number.
  - apply P_bool.
  - apply P_object.
    induction attrs as [|[k v] attrs IHattrs]; constructor; [apply IH | apply IHattrs].
  - apply P_list.
    induction elems as [|v elems IHelems]; constructor; [apply IH | apply IHelems].
  - apply P_set.
    induction elems as [|v elems IHelems]; constructor; [apply IH | apply IHelems].
  - apply P_map.
    induction elems as [|[k v] elems IHelems]; constructor; [apply IH | apply IHelems].
  - apply P_tuple.
    induction elems as [|v elems IHelems]; constructor; [apply IH | apply IHelems].
Qed.

End Value_induction.

(** A property of every value and of every element it iterates over. *)
Lemma Value_ind_elements (P : cty.Value -> Prop) :
  (forall val, Forall P (cty.Elements val) -> P val) ->
  forall val, P val.
Proof.
  intros Hstep val.
  induction val as [| | | |attrs IH|ety elems IH|ety elems IH|ety elems IH|elems IH]
    using Value_ind_nested; apply Hstep; simpl; auto;
    induction IH; simpl; constructor; auto.
Qed.

Lemma hclWriteBlock_object attrs body :
  hclWriteBlock (cty.ObjectVal attrs) body
  = writeAttributes hclWriteBlock attrs body.
Proof. reflexivity. Qed.

Lemma hclWriteBlock_null val body :
  cty.IsNull val = true -> hclWriteBlock val body = (body, None).
Proof. by destruct val. Qed.

Lemma hclWriteBlock_not_object val body :
  cty.IsNull val = false ->
  cty.IsObjectType (cty.TypeOf val) = false ->
  hclWriteBlock val body
  = (body, Some (Errorf_expect_object (cty.FriendlyName (cty.TypeOf val)))).
Proof. by destruct val. Qed.

(** The written body extends the given one; the error does not depend on it. *)
Lemma writeElementBlocks_app write objKey elems body :
  writeElementBlocks write objKey elems body
  = (body ++ (writeElementBlocks write objKey elems []).1,
     (writeElementBlocks write objKey elems []).2).
Proof.
  revert body. induction elems as [|v elems IH]; intros body; simpl.
  - by rewrite app_nil_r.
  - destruct (write v []) as [sub [e|]]; simpl; [done|].
    unfold hclwrite.AppendNewBlock.
    rewrite (IH (body ++ _)), (IH ([] ++ _)). simpl.
    by rewrite <- app_assoc.
Qed.

Lemma writeElementBlocks_ok write objKey elems body :
  Forall (fun v => (write v []).2 = None) elems ->
  writeElementBlocks write objKey elems body
  = (body ++ ((fun v => hclwrite.Block objKey [] (write v []).1) <$> elems), None).
Proof.
  intros Hall. revert body.
  induction Hall as [|v elems Hv _ IH]; intros body; simpl.
  - by rewrite app_nil_r.
  - destruct (write v []) as [sub err]; simpl in *; subst err.
    unfold hclwrite.AppendNewBlock. rewrite IH. by rewrite <- app_assoc.
Qed.

Lemma namedItems_app key body1 body2 :
  namedItems key (body1 ++ body2) = namedItems key body1 ++ namedItems key body2.
Proof. apply filter_app. Qed.

Lemma namedItems_other_block key typeName labels sub :
  typeName <> key -> namedItems key [hclwrite.Block typeName labels sub] = [].
Proof.
  intros Hne. unfold namedItems. rewrite filter_cons_False; [done|]. by simpl.
Qed.

Lemma namedItems_SetAttributeValue key name val body :
  name <> key ->
  namedItems key (hclwrite.SetAttributeValue name val body) = namedItems key body.
Proof.
  intros Hne. unfold namedItems.
  induction body as [|[n v|t ls b] body IH]; simpl.
  - rewrite filter_cons_False; [done|]. by simpl.
  - destruct (String.eqb n name) eqn:Hn.
    + apply String.eqb_eq in Hn. subst n.
      rewrite !filter_cons_False; [done| |]; by simpl.
    + rewrite !filter_cons. simpl. by rewrite IH.
  - rewrite !filter_cons. simpl. by rewrite IH.
Qed.

Lemma namedItems_same_blocks {A} key labels (sub : A -> hclwrite.Body) (l : list A) :
  namedItems key ((fun v => hclwrite.Block key labels (sub v)) <$> l)
  = (fun v => hclwrite.Block key labels (sub v)) <$> l.
Proof.
  unfold namedItems. induction l as [|v l IH]; [done|].
  rewrite fmap_cons, filter_cons_True; [|done]. by rewrite IH.
Qed.

Lemma namedItems_writeElementBlocks_other key write objKey elems body :
  objKey <> key ->
  namedItems key (writeElementBlocks write objKey elems body).1
  = namedItems key body.
Proof.
  intros Hne. revert body. induction elems as [|v elems IH]; intros body; simpl.
  - done.
  - destruct (write v []) as [sub [e|]]; simpl; [|rewrite IH];
      unfold hclwrite.AppendNewBlock;
      by rewrite namedItems_app, namedItems_other_block, app_nil_r.
Qed.

(** A turn of the loop for another attribute leaves the items named [key]
    as they are. *)
Lemma namedItems_writeAttribute_other key write objKey objVal body :
  objKey <> key ->
  namedItems key (writeAttribute write objKey objVal body).1 = namedItems key body.
Proof.
  intros Hne. unfold writeAttribute.
  destruct (cty.IsNull objVal); [done|].
  destruct (cty.IsObjectType _).
  { destruct (write objVal []) as [sub err]. simpl.
    unfold hclwrite.AppendNewBlock.
    by rewrite namedItems_app, namedItems_other_block, app_nil_r. }
  destruct (_ && (_ =? 0)); [done|].
  destruct (_ && _ && _).
  { destruct objVal; try done; by apply namedItems_writeElementBlocks_other. }
  destruct (isEmptyString objVal); [done|]. simpl.
  by apply namedItems_SetAttributeValue.
Qed.

(** A null or empty-string attribute writes nothing. *)
Lemma writeAttribute_null_or_empty write objKey objVal body :
  cty.IsNull objVal = true \/ objVal = cty.StringVal EmptyString ->
  writeAttribute write objKey objVal body = (body, None).
Proof.
  intros [Hnull| ->]; unfold writeAttribute.
  - by rewrite Hnull.
  - reflexivity.
Qed.

Lemma namedItems_writeAttributes_omitted key write attrs body :
  (forall val, (key, val) ∈ attrs ->
     cty.IsNull val = true \/ val = cty.StringVal EmptyString) ->
  namedItems key (writeAttributes write attrs body).1 = namedItems key body.
Proof.
  revert body. induction attrs as [|[k v] attrs IH]; intros body Hkey; [done|].
  simpl.
  assert (namedItems key (writeAttribute write k v body).1 = namedItems key body)
    as Hstep.
  { destruct (decide (k = key)) as [->|Hne].
    - rewrite writeAttribute_null_or_empty; [done|]. apply Hkey. left.
    - by apply namedItems_writeAttribute_other. }
  destruct (writeAttribute write k v body) as [body' [e|]]; simpl in *; [done|].
  rewrite IH; [done|]. intros val Hval. apply Hkey. by right.
Qed.

Lemma namedItems_nil_not_elem key body :
  namedItems key body = [] -> key ∉ (hclwrite.ItemName <$> body).
Proof.
  intros Hnil (it & Hname & Hit)%list_elem_of_fmap.
  by apply (filter_nil_not_elem_of _ _ it Hnil).
Qed.

(** *** Nothing null or empty is written *)

Lemma forallb_app_true {A} (f : A -> bool) (l1 l2 : list A) :
  forallb f l1 = true -> forallb f l2 = true -> forallb f (l1 ++ l2) = true.
Proof. intros H1 H2. rewrite forallb_app. by rewrite H1, H2. Qed.

Lemma SetAttributeValue_clean name val body :
  negb (cty.IsNull val) && negb (isEmptyString val) = true ->
  forallb noNullOrEmptyAttribute body = true ->
  forallb noNullOrEmptyAttribute (hclwrite.SetAttributeValue name val body) = true.
Proof.
  intros Hval. induction body as [|[n v|t ls b] body IH]; simpl.
  - by rewrite Hval.
  - intros [Hv Hbody]%andb_true_iff.
    destruct (String.eqb n name); simpl.
    + by rewrite Hval, Hbody.
    + by rewrite Hv, IH.
  - intros [Hb Hbody]%andb_true_iff. by rewrite Hb, IH.
Qed.

Lemma writeElementBlocks_clean write objKey elems :
  Forall (writesClean write) elems ->
  forall body,
    forallb noNullOrEmptyAttribute body = true ->
    forallb noNullOrEmptyAttribute (writeElementBlocks write objKey elems body).1
    = true.
Proof.
  induction 1 as [|v elems Hv _ IH]; intros body Hbody; simpl; [done|].
  pose proof (Hv [] eq_refl) as Hsub.
  destruct (write v []) as [sub err]. simpl in Hsub.
  assert (forallb noNullOrEmptyAttribute
            (hclwrite.AppendNewBlock objKey [] sub body) = true) as Hnew.
  { apply forallb_app_true; [done|]. simpl. by rewrite Hsub. }
  destruct err; [done|]. by apply IH.
Qed.

Lemma writeAttribute_clean write objKey objVal :
  writesClean write objVal ->
  Forall (writesClean write) (cty.Elements objVal) ->
  writesClean (fun val => writeAttribute write objKey val) objVal.
Proof.
  intros Hval Helems body Hbody. unfold writeAttribute.
  destruct (cty.IsNull objVal) eqn:Hnull; [done|].
  destruct (cty.IsObjectType _).
  { pose proof (Hval [] eq_refl) as Hsub.
    destruct (write objVal []) as [sub err]. simpl in *.
    apply forallb_app_true; [done|]. simpl. by rewrite Hsub. }
  destruct (_ && (_ =? 0)); [done|].
  destruct (_ && _ && _).
  { destruct objVal; try done; by apply writeElementBlocks_clean. }
  destruct (isEmptyString objVal) eqn:Hempty; [done|]. simpl.
  apply SetAttributeValue_clean; [|done]. by rewrite Hnull, Hempty.
Qed.

Lemma writeAttributes_clean write attrs :
  Forall (fun kv => writesClean write kv.2
                    /\ Forall (writesClean write) (cty.Elements kv.2)) attrs ->
  forall body,
    forallb noNullOrEmptyAttribute body = true ->
    forallb noNullOrEmptyAttribute (writeAttributes write attrs body).1 = true.
Proof.
  induction 1 as [|[k v] attrs [Hv Helems] _ IH]; intros body Hbody; [done|].
  simpl in *.
  pose proof (writeAttribute_clean write k v Hv Helems body Hbody) as Hstep.
  simpl in Hstep.
  destruct (writeAttribute write k v body) as [body' [e|]]; [done|].
  by apply IH.
Qed.

Lemma hclWriteBlock_clean val : writesClean hclWriteBlock val.
Proof.
  enough (writesClean hclWriteBlock val
          /\ Forall (writesClean hclWriteBlock) (cty.Elements val)) by tauto.
  induction val as [val IH] using Value_ind_elements.
  split; [|by eapply Forall_impl; [exact IH|intros ? []]].
  intros body Hbody.
  destruct val as [| | | |attrs| | | |]; try done.
  rewrite hclWriteBlock_object.
  apply writeAttributes_clean; [|done].
  simpl in IH. by apply Forall_fmap in IH.
Qed.

(** *** Well-typed objects are written without error *)

Lemma WellTyped_elements_object val :
  cty.WellTyped val ->
  cty.IsCollectionType (cty.TypeOf val) && negb (cty.IsMapType (cty.TypeOf val))
  && elementTypeIsObject (cty.TypeOf val) = true ->
  Forall (fun v => cty.WellTyped v /\ cty.IsObjectType (cty.TypeOf v) = true)
    (cty.Elements val).
Proof.
  intros Hwt Hty.
  destruct val as [ty| | | | |ety elems|ety elems| |]; try done; simpl in *.
  - inversion Hwt as [| | | | |? ? Hall| | |]; subst.
    eapply Forall_impl; [exact Hall|]. intros v [-> ?]. auto.
  - inversion Hwt as [| | | | | |? ? Hall| |]; subst.
    eapply Forall_impl; [exact Hall|]. intros v [-> ?]. auto.
Qed.

Lemma writeAttribute_collection write objKey objVal body :
  cty.IsNull objVal = false ->
  cty.IsCollectionType (cty.TypeOf objVal) = true ->
  cty.IsMapType (cty.TypeOf objVal) = false ->
  elementTypeIsObject (cty.TypeOf objVal) = true ->
  writeAttribute write objKey objVal body
  = writeElementBlocks write objKey (cty.Elements objVal) body.
Proof.
  intros Hnull Hcoll Hmap Helem. unfold writeAttribute.
  rewrite Hnull, Hcoll, Hmap, Helem. simpl.
  destruct objVal as [| | | | |ety elems|ety elems| |]; try done;
    by destruct elems.
Qed.

Lemma writeAttribute_ok write objKey objVal :
  cty.WellTyped objVal ->
  writesOk write objVal ->
  Forall (writesOk write) (cty.Elements objVal) ->
  forall body, (writeAttribute write objKey objVal body).2 = None.
Proof.
  intros Hwt Hval Helems body. unfold writeAttribute.
  destruct (cty.IsNull objVal) eqn:Hnull; [done|].
  destruct (cty.IsObjectType _) eqn:Hobj.
  { pose proof (Hval Hwt (or_intror Hobj) []) as Hsub.
    by destruct (write objVal []) as [sub err]. }
  destruct (_ && (_ =? 0)); [done|].
  destruct (_ && _ && _) eqn:Hrep; [|by destruct (isEmptyString objVal)].
  pose proof (WellTyped_elements_object _ Hwt Hrep) as Hall.
  assert (Forall (fun v => (write v []).2 = None) (cty.Elements objVal)) as Hok.
  { apply Forall_forall. intros v Hv.
    rewrite Forall_forall in Hall, Helems.
    destruct (Hall v Hv) as [Hwtv Hobjv].
    by apply (Helems v Hv Hwtv (or_intror Hobjv)). }
  destruct objVal; try done; simpl in Hok;
    by rewrite (writeElementBlocks_ok _ _ _ _ Hok).
Qed.

Lemma writeAttributes_ok write attrs :
  Forall (fun kv => forall body, (writeAttribute write kv.1 kv.2 body).2 = None)
    attrs ->
  forall body, (writeAttributes write attrs body).2 = None.
Proof.
  induction 1 as [|[k v] attrs Hv _ IH]; intros body; [done|].
  simpl in *. specialize (Hv body).
  destruct (writeAttribute write k v body) as [body' err]. simpl in Hv.
  subst err. apply IH.
Qed.

Lemma hclWriteBlock_ok val : writesOk hclWriteBlock val.
Proof.
  enough (writesOk hclWriteBlock val
          /\ Forall (writesOk hclWriteBlock) (cty.Elements val)) by tauto.
  induction val as [val IH] using Value_ind_elements.
  split; [|by eapply Forall_impl; [exact IH|intros ? []]].
  intros Hwt Hty body.
  destruct val as [| | | |attrs| | | |]; try done;
    try (by destruct Hty as [Hty|Hty]).
  rewrite hclWriteBlock_object.
  inversion Hwt as [| | | |? _ Hattrs| | | |]; subst.
  apply writeAttributes_ok.
  simpl in IH. apply Forall_fmap in IH.
  apply Forall_forall. intros [k v] Hkv.
  rewrite Forall_forall in IH, Hattrs.
  destruct (IH _ Hkv) as [Hv Helems].
  by apply writeAttribute_ok; [apply (Hattrs _ Hkv)| |].
Qed.

Lemma writeAttributes_app write attrs1 attrs2 body :
  writeAttributes write (attrs1 ++ attrs2) body
  = match writeAttributes write attrs1 body with
    | (body', Some e) => (body', Some e)
    | (body', None) => writeAttributes write attrs2 body'
    end.
Proof.
  revert body. induction attrs1 as [|[k v] attrs1 IH]; intros body; [done|].
  simpl. destruct (writeAttribute write k v body) as [body' [e|]]; [done|].
  apply IH.
Qed.

(** ** The claims on hclWriteBlock *)

(** C3 (as the code has it): a null value is accepted as the root of a
    block body whatever its type; here a null of type string, which is
    not an object type, is written without error. *)
Lemma hclWriteBlock_accepts_null_string :
  cty.IsObjectType (cty.TypeOf (cty.NullVal cty.TyString)) = false
  /\ hclWriteBlock (cty.NullVal cty.TyString) [] = ([], None).
Proof. split; reflexivity. Qed.

(** C3 (amended): for every value that is not null and whose type is not
    an object type, [hclWriteBlock] fails with the error
    "expect object type only" and writes nothing. *)
Theorem hclWriteBlock_rejects_non_object val body :
  cty.IsNull val = false ->
  cty.IsObjectType (cty.TypeOf val) = false ->
  hclWriteBlock val body
  = (body, Some (Errorf_expect_object (cty.FriendlyName (cty.TypeOf val)))).
Proof. apply hclWriteBlock_not_object. Qed.

Lemma hclWriteBlock_rejects_non_object_witness :
  hclWriteBlock (cty.ListVal cty.TyString [cty.StringVal "a"]) []
  = ([], Some "expect object type only, but type = list of string").
Proof.
  apply (hclWriteBlock_rejects_non_object
           (cty.ListVal cty.TyString [cty.StringVal "a"]) []); reflexivity.
Defined.

(** C5: when an object is written, an attribute whose value is null and
    an attribute whose value is the empty string are left out: nothing
    in the written body goes by their name, and no attribute of the body,
    at any depth, is null or the empty string. *)
Theorem hclWriteBlock_omits_null_and_empty attrs key :
  (forall val, (key, val) ∈ attrs ->
     cty.IsNull val = true \/ val = cty.StringVal EmptyString) ->
  (key ∉ (hclwrite.ItemName <$> (hclWriteBlock (cty.ObjectVal attrs) []).1))
  /\ forallb noNullOrEmptyAttribute (hclWriteBlock (cty.ObjectVal attrs) []).1
     = true.
Proof.
  intros Hkey. split.
  - apply namedItems_nil_not_elem. rewrite hclWriteBlock_object.
    by rewrite namedItems_writeAttributes_omitted.
  - by apply hclWriteBlock_clean.
Qed.

Lemma hclWriteBlock_omits_null_and_empty_witness :
  let attrs := [("description", cty.NullVal cty.TyString);
                ("label", cty.StringVal EmptyString);
                ("name", cty.StringVal "vm")] in
  ("description"
     ∉ (hclwrite.ItemName <$> (hclWriteBlock (cty.ObjectVal attrs) []).1))
  /\ ("label"
      ∉ (hclwrite.ItemName <$> (hclWriteBlock (cty.ObjectVal attrs) []).1))
  /\ (hclWriteBlock (cty.ObjectVal attrs) []).1
     = [hclwrite.Attribute "name" (cty.StringVal "vm")].
Proof.
  intros attrs. split; [|split].
  - apply (hclWriteBlock_omits_null_and_empty attrs "description").
    intros val Hin. apply list_elem_of_In in Hin. simpl in Hin.
    destruct Hin as [[= <-]|[[=]|[[=]|[]]]]. by left.
  - apply (hclWriteBlock_omits_null_and_empty attrs "label").
    intros val Hin. apply list_elem_of_In in Hin. simpl in Hin.
    destruct Hin as [[=]|[[= <-]|[[=]|[]]]]. by right.
  - reflexivity.
Defined.

(** C6: when a well-typed object is written, an attribute whose value is a
    list or a set (not a map) of objects yields one block named after the
    attribute for each element, in the order of the elements, each holding
    what writing that element yields (and so no block when it is empty). *)
Theorem hclWriteBlock_repeated_blocks attrs key coll :
  cty.WellTyped (cty.ObjectVal attrs) ->
  (key, coll) ∈ attrs ->
  cty.IsNull coll = false ->
  cty.IsCollectionType (cty.TypeOf coll) = true ->
  cty.IsMapType (cty.TypeOf coll) = false ->
  elementTypeIsObject (cty.TypeOf coll) = true ->
  exists body,
    hclWriteBlock (cty.ObjectVal attrs) [] = (body, None)
    /\ namedItems key body
       = (fun listVal => hclwrite.Block key [] (hclWriteBlock listVal []).1)
           <$> cty.Elements coll.
Proof.
  intros Hwt Hin Hnull Hcoll Hmap Helem.
  pose proof (hclWriteBlock_ok _ Hwt (or_intror eq_refl) []) as Hok.
  destruct (hclWriteBlock (cty.ObjectVal attrs) []) as [body err] eqn:Hrun.
  simpl in Hok. subst err. exists body. split; [done|].
  change body with (body, @None error).1. rewrite <- Hrun. clear Hrun.
  inversion Hwt as [| | | |? Hnodup Hattrs| | | |]; subst.
  apply list_elem_of_split in Hin as (pre & post & ->).
  rewrite fmap_app, fmap_cons in Hnodup. simpl in Hnodup.
  apply NoDup_app in Hnodup as (_ & Hpre & Hpost).
  apply NoDup_cons in Hpost as [Hpost _].
  assert (key ∉ pre.*1) as Hpre'.
  { intros Hk. apply (Hpre key Hk). left. }
  rewrite hclWriteBlock_object, writeAttributes_app.
  pose proof (namedItems_writeAttributes_omitted key hclWriteBlock pre []) as Hbefore.
  destruct (writeAttributes hclWriteBlock pre []) as [body1 err1] eqn:Hrun1.
  assert (err1 = None) as ->.
  { change err1 with (body1, err1).2. rewrite <- Hrun1.
    apply Forall_app in Hattrs as [Hattrs _].
    apply writeAttributes_ok, Forall_forall. intros [k v] Hkv.
    rewrite Forall_forall in Hattrs.
    apply writeAttribute_ok; [apply (Hattrs _ Hkv)|apply hclWriteBlock_ok|].
    apply Forall_forall. intros; apply hclWriteBlock_ok. }
  simpl in Hbefore. simpl.
  rewrite writeAttribute_collection by done.
  apply Forall_app in Hattrs as [_ Hattrs].
  apply Forall_cons in Hattrs as [Hwtc Hattrs]. simpl in Hwtc.
  assert (Forall (fun v => (hclWriteBlock v []).2 = None) (cty.Elements coll))
    as Helems.
  { assert (cty.IsCollectionType (cty.TypeOf coll)
            && negb (cty.IsMapType (cty.TypeOf coll))
            && elementTypeIsObject (cty.TypeOf coll) = true) as Hrep
      by (by rewrite Hcoll, Hmap, Helem).
    pose proof (WellTyped_elements_object _ Hwtc Hrep) as Hall.
    eapply Forall_impl; [exact Hall|]. intros v [Hwtv Hobjv].
    by apply hclWriteBlock_ok; [|right]. }
  rewrite (writeElementBlocks_ok _ _ _ _ Helems).
  rewrite namedItems_writeAttributes_omitted.
  - rewrite namedItems_app, Hbefore, namedItems_same_blocks; [done|].
    intros val Hval. destruct Hpre'. by apply (list_elem_of_fmap_2 fst) in Hval.
  - intros val Hval. destruct Hpost. by apply (list_elem_of_fmap_2 fst) in Hval.
Qed.

Lemma sampleInstance_WellTyped : cty.WellTyped sampleInstance.
Proof.
  unfold sampleInstance, sampleDisks, diskType.
  repeat match goal with
         | |- cty.WellTyped _ => constructor
         | |- Forall _ _ => constructor
         | |- NoDup _ => constructor
         | |- _ /\ _ => split
         | |- _ = _ => reflexivity
         | |- _ ∉ _ =>
             intros Hin; apply list_elem_of_In in Hin; simpl in Hin;
             intuition discriminate
         end.
Qed.

Lemma hclWriteBlock_repeated_blocks_witness :
  exists body,
    hclWriteBlock sampleInstance [] = (body, None)
    /\ namedItems "disk" body
       = [hclwrite.Block "disk" []
            [hclwrite.Attribute "device" (cty.StringVal "sda")];
          hclwrite.Block "disk" []
            [hclwrite.Attribute "device" (cty.StringVal "sdb")]].
Proof.
  apply (hclWriteBlock_repeated_blocks
           [("disk", sampleDisks); ("name", cty.StringVal "vm")]
           "disk" sampleDisks);
    [apply sampleInstance_WellTyped | left | reflexivity..].
Defined.

(** ** Convert *)

Lemma writeResourceBlocks_app items rootBody :
  writeResourceBlocks items rootBody
  = (rootBody ++ (writeResourceBlocks items []).1,
     (writeResourceBlocks items []).2).
Proof.
  revert rootBody. induction items as [|rb items IH]; intros rootBody; simpl.
  - by rewrite app_nil_r.
  - destruct (hclWriteBlock (Value rb) []) as [sub [e|]]; simpl; [done|].
    unfold hclwrite.AppendNewBlock.
    rewrite (IH (rootBody ++ _)), (IH ([] ++ _)). simpl.
    by rewrite <- app_assoc.
Qed.

Lemma writeResourceBlocks_ok items :
  (writeResourceBlocks items []).2 = None ->
  (writeResourceBlocks items []).1
  = (fun resourceBlock =>
       hclwrite.Block "resource" (Labels resourceBlock)
         (hclWriteBlock (Value resourceBlock) []).1) <$> items.
Proof.
  induction items as [|rb items IH]; simpl; [done|].
  destruct (hclWriteBlock (Value rb) []) as [sub [e|]]; simpl; [done|].
  unfold hclwrite.AppendNewBlock.
  rewrite writeResourceBlocks_app. simpl. intros Hok. by rewrite IH.
Qed.

Lemma convertGroups_app order1 order2 converterMap rootBody :
  convertGroups (order1 ++ order2) converterMap rootBody
  = match convertGroups order1 converterMap rootBody with
    | (rootBody', Some e) => (rootBody', Some e)
    | (rootBody', None) => convertGroups order2 converterMap rootBody'
    end.
Proof.
  revert rootBody.
  induction order1 as [|[name v] order1 IH]; intros rootBody; [done|].
  simpl. destruct (converterMap !! name) as [converter|]; [|apply IH].
  destruct (ConverterConvert converter v) as [items [e|]]; [done|].
  destruct (writeResourceBlocks items rootBody) as [rootBody' [e|]]; [done|].
  apply IH.
Qed.

(** One turn of the second loop, for a group that does not fail. *)
Lemma convertGroups_cons_ok group order converterMap rootBody :
  groupFails converterMap group = false ->
  convertGroups (group :: order) converterMap rootBody
  = convertGroups order converterMap (rootBody ++ groupBlocks converterMap group).
Proof.
  destruct group as [name v]. unfold groupFails, groupBlocks. simpl.
  destruct (converterMap !! name) as [converter|]; [|by rewrite app_nil_r].
  destruct (ConverterConvert converter v) as [items [e|]]; [done|]. simpl.
  intros Hok%bool_decide_eq_false.
  rewrite writeResourceBlocks_app.
  destruct (writeResourceBlocks items []) as [blocks err] eqn:Hrun. simpl in *.
  destruct err as [e|]; [by destruct Hok|].
  change blocks with (blocks, @None error).1. rewrite <- Hrun.
  rewrite writeResourceBlocks_ok; [done|]. by rewrite Hrun.
Qed.

(** One turn of the second loop, for a group that fails. *)
Lemma convertGroups_cons_fails group order converterMap rootBody :
  groupFails converterMap group = true ->
  exists rootBody' e,
    convertGroups (group :: order) converterMap rootBody = (rootBody', Some e).
Proof.
  destruct group as [name v]. unfold groupFails. simpl.
  destruct (converterMap !! name) as [converter|]; [|done].
  destruct (ConverterConvert converter v) as [items [e|]]; [by eauto|].
  intros [e He]%bool_decide_eq_true.
  rewrite writeResourceBlocks_app. rewrite He. eauto.
Qed.

Lemma convertGroups_ok order converterMap rootBody :
  Forall (fun group => groupFails converterMap group = false) order ->
  convertGroups order converterMap rootBody
  = (rootBody ++ mjoin (groupBlocks converterMap <$> order), None).
Proof.
  intros Hall. revert rootBody.
  induction Hall as [|group order Hgroup _ IH]; intros rootBody.
  - simpl. by rewrite app_nil_r.
  - rewrite convertGroups_cons_ok, IH by done.
    rewrite fmap_cons. simpl. by rewrite <- app_assoc.
Qed.

Lemma convertGroups_fails order converterMap rootBody :
  Exists (fun group => groupFails converterMap group = true) order ->
  exists rootBody' e, convertGroups order converterMap rootBody = (rootBody', Some e).
Proof.
  intros Hex. revert rootBody.
  induction Hex as [group order Hgroup|group order _ IH]; intros rootBody.
  - by apply convertGroups_cons_fails.
  - destruct (groupFails converterMap group) eqn:Hgroup.
    + by apply convertGroups_cons_fails.
    + rewrite convertGroups_cons_ok by done. apply IH.
Qed.

Lemma groups_fail_or_not converterMap (order : list (string * list caiasset.Asset)) :
  Forall (fun group => groupFails converterMap group = false) order
  \/ Exists (fun group => groupFails converterMap group = true) order.
Proof.
  induction order as [|group order [IH|IH]].
  - left. constructor.
  - destruct (groupFails converterMap group) eqn:Hgroup.
    + right. by constructor.
    + left. by constructor.
  - right. by constructor 2.
Qed.

Section Convert_properties.

Context (FileBytes : hclwrite.Body -> string).
Context (printerFormat : string -> GoResult string).

Lemma ConvertAlong_ok order converterMap :
  Forall (fun group => groupFails converterMap group = false) order ->
  ConvertAlong FileBytes printerFormat order converterMap
  = printerFormat (FileBytes (mjoin (groupBlocks converterMap <$> order))).
Proof.
  intros Hall. unfold ConvertAlong.
  by rewrite (convertGroups_ok _ _ [] Hall).
Qed.

Lemma ConvertAlong_fails order converterMap :
  Exists (fun group => groupFails converterMap group = true) order ->
  exists e, ConvertAlong FileBytes printerFormat order converterMap = (None, Some e).
Proof.
  intros Hex. unfold ConvertAlong.
  destruct (convertGroups_fails _ _ [] Hex) as (rootBody & e & ->). eauto.
Qed.

(** A group without a converter takes no part in the run. *)
Lemma ConvertAlong_skip pre name v post converterMap :
  converterMap !! name = None ->
  ConvertAlong FileBytes printerFormat (pre ++ (name, v) :: post) converterMap
  = ConvertAlong FileBytes printerFormat (pre ++ post) converterMap.
Proof.
  intros Hnone. unfold ConvertAlong.
  rewrite !convertGroups_app. simpl. by rewrite Hnone.
Qed.

End Convert_properties.

(** *** The groups formed by the first loop *)

Lemma groupAssets_unresolved assets1 asset assets2 converterNames :
  converterNames !! caiasset.Type_ asset = None ->
  groupAssets (assets1 ++ asset :: assets2) converterNames
  = groupAssets (assets1 ++ assets2) converterNames.
Proof.
  intros Hnone. unfold groupAssets. rewrite !foldl_app. simpl.
  by rewrite Hnone.
Qed.

(** Taking the assets of one converter name out of the batch takes its
    group out of the groups and leaves the other groups as they are. *)
Lemma groupAssets_without_group assets converterNames name :
  groupAssets
    (filter (fun asset => converterNames !! caiasset.Type_ asset <> Some name) assets)
    converterNames
  = delete name (groupAssets assets converterNames).
Proof.
  induction assets as [|asset assets IH] using rev_ind.
  - unfold groupAssets. simpl. by rewrite delete_empty.
  - rewrite filter_app. unfold groupAssets in *.
    rewrite (foldl_app _ assets). simpl.
    destruct (converterNames !! caiasset.Type_ asset) as [name'|] eqn:Hname.
    + destruct (decide (name' = name)) as [->|Hne].
      * rewrite filter_cons_False, filter_nil, app_nil_r by (by rewrite Hname; auto).
        by rewrite IH, delete_insert_eq.
      * rewrite filter_cons_True, filter_nil by (rewrite Hname; congruence).
        rewrite foldl_app. simpl. rewrite Hname, IH.
        by rewrite delete_insert_ne, lookup_delete_ne.
    + rewrite filter_cons_True, filter_nil by (by rewrite Hname).
      rewrite foldl_app. simpl. by rewrite Hname, IH.
Qed.

Lemma RangeOf_split {V} (groups : gmap string V) order name v :
  RangeOf groups order ->
  groups !! name = Some v ->
  exists pre post,
    order = pre ++ (name, v) :: post
    /\ RangeOf (delete name groups) (pre ++ post).
Proof.
  unfold RangeOf. intros Horder Hname.
  assert ((name, v) ∈ order) as Hin.
  { rewrite Horder. by apply elem_of_map_to_list. }
  apply list_elem_of_split in Hin as (pre & post & ->).
  exists pre, post. split; [done|].
  rewrite <- (map_to_list_delete _ _ _ Hname) in Horder.
  symmetry. symmetry in Horder.
  by apply Permutation_cons_app_inv in Horder.
Qed.

Lemma RangeOf_exists {V} (groups : gmap string V) :
  RangeOf groups (map_to_list groups).
Proof. by unfold RangeOf. Qed.

(** The group of a converter name: the assets that resolve to it, in the
    order of the batch; there is no group without assets. *)
Lemma groupAssets_lookup assets converterNames name :
  groupAssets assets converterNames !! name
  = match filter (fun asset => converterNames !! caiasset.Type_ asset = Some name)
            assets with
    | [] => None
    | group => Some group
    end.
Proof.
  induction assets as [|asset assets IH] using rev_ind; [done|].
  rewrite filter_app. unfold groupAssets in *. rewrite foldl_app. simpl.
  destruct (converterNames !! caiasset.Type_ asset) as [name'|] eqn:Hname.
  - destruct (decide (name' = name)) as [->|Hne].
    + rewrite lookup_insert_eq, IH, filter_cons_True, filter_nil by done.
      by destruct (filter _ assets).
    + rewrite lookup_insert_ne, IH, filter_cons_False, filter_nil, app_nil_r
        by congruence.
      done.
  - rewrite IH, filter_cons_False, filter_nil, app_nil_r by (by rewrite Hname).
    done.
Qed.

Lemma RangeOf_keys {V} (groups : gmap string V) order :
  RangeOf groups order -> NoDup order.*1.
Proof.
  unfold RangeOf. intros ->. apply NoDup_fst_map_to_list.
Qed.

Lemma RangeOf_lookup {V} (groups : gmap string V) order name v :
  RangeOf groups order -> (name, v) ∈ order <-> groups !! name = Some v.
Proof.
  unfold RangeOf. intros ->. apply elem_of_map_to_list.
Qed.

(** A group without a converter adds no block. *)
Lemma groupBlocks_without_converter converterMap name
    (order : list (string * list caiasset.Asset)) :
  converterMap !! name = None ->
  mjoin (groupBlocks converterMap <$> order)
  = mjoin (groupBlocks converterMap <$> filter (fun group => group.1 <> name) order).
Proof.
  intros Hnone. induction order as [|[name' v] order IH]; [done|].
  rewrite fmap_cons. simpl. rewrite IH.
  destruct (decide (name' = name)) as [->|Hne].
  - rewrite filter_cons_False by (simpl; auto).
    unfold groupBlocks at 1. simpl. by rewrite Hnone.
  - by rewrite filter_cons_True.
Qed.

(** [Convert] always returns: the groups have an enumeration. *)
Lemma Convert_returns FileBytes printerFormat assets converterNames converterMap :
  exists out,
    Convert FileBytes printerFormat assets converterNames converterMap out.
Proof. eexists. eexists. split; [apply RangeOf_exists|done]. Qed.

(** ** The claims on Convert *)

Section Convert_claims.

Context (FileBytes : hclwrite.Body -> string).
Context (printerFormat : string -> GoResult string).

(** C1 (amended): take two runs of [Convert] on the same batch,
    resolution table and converter map, each with the order in which its
    [range] visits the groups.  Either both fail before the formatter is
    called, each returning an error and no document, or both build a
    file and return what the formatter returns for it.  The file of a run
    holds the resource blocks of the groups, group after group in the
    order of that run, the blocks of one group in the order its converter
    returned them; the two files hold the same blocks, and the two
    results are the same when the two orders are. *)
Theorem Convert_runs_agree_up_to_group_order
    assets converterNames converterMap order1 order2 :
  RangeOf (groupAssets assets converterNames) order1 ->
  RangeOf (groupAssets assets converterNames) order2 ->
  ((exists e1 e2,
      ConvertAlong FileBytes printerFormat order1 converterMap = (None, Some e1)
      /\ ConvertAlong FileBytes printerFormat order2 converterMap
         = (None, Some e2))
   \/ (convertGroups order1 converterMap []
        = (mjoin (groupBlocks converterMap <$> order1), None)
       /\ convertGroups order2 converterMap []
          = (mjoin (groupBlocks converterMap <$> order2), None)
       /\ ConvertAlong FileBytes printerFormat order1 converterMap
          = printerFormat
              (FileBytes (mjoin (groupBlocks converterMap <$> order1)))
       /\ ConvertAlong FileBytes printerFormat order2 converterMap
          = printerFormat
              (FileBytes (mjoin (groupBlocks converterMap <$> order2)))
       /\ mjoin (groupBlocks converterMap <$> order1)
          ≡ₚ mjoin (groupBlocks converterMap <$> order2)))
  /\ (order1 = order2 ->
      ConvertAlong FileBytes printerFormat order1 converterMap
      = ConvertAlong FileBytes printerFormat order2 converterMap).
Proof.
  intros Hrange1 Hrange2. split; [|by intros ->].
  assert (order1 ≡ₚ order2) as Hperm.
  { unfold RangeOf in *. by rewrite Hrange1, Hrange2. }
  destruct (groups_fail_or_not converterMap order1) as [Hok|Hfail].
  - right.
    assert (Forall (fun group => groupFails converterMap group = false) order2)
      as Hok2 by (by rewrite <- Hperm).
    split_and!.
    + by rewrite (convertGroups_ok _ _ [] Hok).
    + by rewrite (convertGroups_ok _ _ [] Hok2).
    + by apply ConvertAlong_ok.
    + by apply ConvertAlong_ok.
    + by rewrite Hperm.
  - left.
    assert (Exists (fun group => groupFails converterMap group = true) order2)
      as Hfail2 by (by rewrite <- Hperm).
    destruct (ConvertAlong_fails FileBytes printerFormat _ _ Hfail) as [e1 ->].
    destruct (ConvertAlong_fails FileBytes printerFormat _ _ Hfail2) as [e2 ->].
    eauto.
Qed.

(** C4: when the converter of some group returns an error, every run of
    [Convert] returns an error and no document.  In a run that visits the
    groups [pre] before that group, the error returned is the one of that
    converter when nothing failed on [pre], and otherwise the error that
    made the run return on [pre], before the converter was called: the
    first error met is returned at once, and nothing of what was written
    for the groups visited before. *)
Theorem Convert_all_or_nothing
    assets converterNames converterMap name v converter items e :
  groupAssets assets converterNames !! name = Some v ->
  converterMap !! name = Some converter ->
  ConverterConvert converter v = (items, Some e) ->
  (forall out,
     Convert FileBytes printerFormat assets converterNames converterMap out ->
     out.1 = None /\ is_Some out.2)
  /\ (forall pre post,
        RangeOf (groupAssets assets converterNames) (pre ++ (name, v) :: post) ->
        ConvertAlong FileBytes printerFormat (pre ++ (name, v) :: post)
          converterMap
        = (None, Some (default e (convertGroups pre converterMap []).2)))
  /\ (forall pre post,
        RangeOf (groupAssets assets converterNames) (pre ++ (name, v) :: post) ->
        Forall (fun group => groupFails converterMap group = false) pre ->
        ConvertAlong FileBytes printerFormat (pre ++ (name, v) :: post)
          converterMap
        = (None, Some e)).
Proof.
  intros Hgroup Hconverter Hfails.
  assert (forall pre post,
            ConvertAlong FileBytes printerFormat (pre ++ (name, v) :: post)
              converterMap
            = (None, Some (default e (convertGroups pre converterMap []).2)))
    as Hrun.
  { intros pre post. unfold ConvertAlong. rewrite convertGroups_app.
    destruct (convertGroups pre converterMap []) as [rootBody [e1|]]; [done|].
    simpl. by rewrite Hconverter, Hfails. }
  split_and!.
  - intros out (order & Hrange & <-).
    destruct (RangeOf_split _ _ _ _ Hrange Hgroup) as (pre & post & -> & _).
    rewrite Hrun. simpl. eauto.
  - intros pre post _. apply Hrun.
  - intros pre post _ Hpre. rewrite Hrun.
    by rewrite (convertGroups_ok _ _ [] Hpre).
Qed.

(** C9: an asset whose type has no entry in the resolution table joins no
    group and causes no error: the groups are those of the other assets,
    each holding the assets that resolve to its name; when no group
    fails, a run returns what the formatter makes of the file holding the
    blocks of all these groups; and [Convert] returns for the batch
    exactly what it returns for the batch without that asset. *)
Theorem Convert_drops_unresolved_asset
    assets1 asset assets2 converterNames converterMap :
  converterNames !! caiasset.Type_ asset = None ->
  (forall name,
     groupAssets (assets1 ++ asset :: assets2) converterNames !! name
     = match filter (fun a => converterNames !! caiasset.Type_ a = Some name)
               (assets1 ++ assets2) with
       | [] => None
       | group => Some group
       end)
  /\ (forall order,
        RangeOf (groupAssets (assets1 ++ asset :: assets2) converterNames) order ->
        Forall (fun group => groupFails converterMap group = false) order ->
        convertGroups order converterMap []
        = (mjoin (groupBlocks converterMap <$> order), None)
        /\ ConvertAlong FileBytes printerFormat order converterMap
           = printerFormat
               (FileBytes (mjoin (groupBlocks converterMap <$> order))))
  /\ (forall out,
        Convert FileBytes printerFormat
          (assets1 ++ asset :: assets2) converterNames converterMap out
        <-> Convert FileBytes printerFormat
              (assets1 ++ assets2) converterNames converterMap out).
Proof.
  intros Hnone. split_and!.
  - intros name. rewrite (groupAssets_unresolved _ _ _ _ Hnone).
    apply groupAssets_lookup.
  - intros order _ Hok. split.
    + by rewrite (convertGroups_ok _ _ [] Hok).
    + by apply ConvertAlong_ok.
  - intros out. unfold Convert.
    by rewrite (groupAssets_unresolved _ _ _ _ Hnone).
Qed.

(** C10: a group whose converter name has no entry in the converter map
    is passed over without error, and the other groups are converted and
    written: each group holds the assets that resolve to its name; when
    no other group fails, a run returns what the formatter makes of the
    file holding the blocks of the other groups, in the order of the run;
    and [Convert] returns for the batch exactly what it returns for the
    batch without the assets of that group. *)
Theorem Convert_skips_group_without_converter
    assets converterNames converterMap name :
  converterMap !! name = None ->
  (forall name',
     groupAssets assets converterNames !! name'
     = match filter (fun a => converterNames !! caiasset.Type_ a = Some name')
               assets with
       | [] => None
       | group => Some group
       end)
  /\ (forall order,
        RangeOf (groupAssets assets converterNames) order ->
        Forall (fun group =>
                  group.1 <> name -> groupFails converterMap group = false)
          order ->
        convertGroups order converterMap []
        = (mjoin (groupBlocks converterMap
                    <$> filter (fun group => group.1 <> name) order), None)
        /\ ConvertAlong FileBytes printerFormat order converterMap
           = printerFormat
               (FileBytes
                  (mjoin (groupBlocks converterMap
                            <$> filter (fun group => group.1 <> name) order))))
  /\ (forall out,
        Convert FileBytes printerFormat assets converterNames converterMap out
        <-> Convert FileBytes printerFormat
              (filter (fun asset =>
                         converterNames !! caiasset.Type_ asset <> Some name)
                 assets)
              converterNames converterMap out).
Proof.
  intros Hnone. split_and!.
  - intros name'. apply groupAssets_lookup.
  - intros order _ Hothers.
    assert (Forall (fun group => groupFails converterMap group = false) order)
      as Hok.
    { eapply Forall_impl; [exact Hothers|]. intros [name' v'] Hgroup.
      destruct (decide (name' = name)) as [->|Hne]; [|by apply Hgroup].
      unfold groupFails. simpl. by rewrite Hnone. }
    rewrite <- (groupBlocks_without_converter _ _ _ Hnone). split.
    + by rewrite (convertGroups_ok _ _ [] Hok).
    + by apply ConvertAlong_ok.
  - intros out. unfold Convert. rewrite groupAssets_without_group.
    set (groups := groupAssets assets converterNames).
    destruct (groups !! name) as [v|] eqn:Hgroup; [|by rewrite delete_id].
    split; intros (order & Hrange & <-).
    + destruct (RangeOf_split _ _ _ _ Hrange Hgroup) as (pre & post & -> & Hrest).
      exists (pre ++ post). split; [done|]. symmetry. by apply ConvertAlong_skip.
    + exists ([] ++ (name, v) :: order). split.
      * unfold RangeOf in *. simpl. rewrite Hrange. by apply map_to_list_delete.
      * by rewrite ConvertAlong_skip.
Qed.

End Convert_claims.

(** ** Sample runs *)

Ltac range_of_sample :=
  unfold RangeOf; vm_compute;
  first [reflexivity | apply perm_swap | apply Permutation_rev].

Lemma sampleGroups_instanceFirst :
  RangeOf (groupAssets sampleAssets sampleNames) instanceFirst.
Proof. range_of_sample. Qed.

Lemma sampleGroups_projectFirst :
  RangeOf (groupAssets sampleAssets sampleNames) projectFirst.
Proof. range_of_sample. Qed.

Lemma sampleRun_instanceFirst converterMap :
  Convert plainBytes formatUnchanged sampleAssets sampleNames converterMap
    (ConvertAlong plainBytes formatUnchanged instanceFirst converterMap).
Proof. exists instanceFirst. split; [apply sampleGroups_instanceFirst|done]. Qed.

Lemma sampleRun_projectFirst converterMap :
  Convert plainBytes formatUnchanged sampleAssets sampleNames converterMap
    (ConvertAlong plainBytes formatUnchanged projectFirst converterMap).
Proof. exists projectFirst. split; [apply sampleGroups_projectFirst|done]. Qed.

(** C1 (as the code has it): for the sample batch of an instance and a
    project, the run that visits the instances first and the run that
    visits the projects first both succeed, and they return different
    documents: the two resource blocks come in opposite orders. *)
Lemma Convert_output_depends_on_group_order :
  Convert plainBytes formatUnchanged sampleAssets sampleNames sampleConverters
    (ConvertAlong plainBytes formatUnchanged instanceFirst sampleConverters)
  /\ Convert plainBytes formatUnchanged sampleAssets sampleNames sampleConverters
       (ConvertAlong plainBytes formatUnchanged projectFirst sampleConverters)
  /\ (convertGroups instanceFirst sampleConverters []).1
     = [hclwrite.Block "resource" ["google_compute_instance"; "vm"]
          [hclwrite.Attribute "name" (cty.StringVal "vm")];
        hclwrite.Block "resource" ["google_project"; "prj"]
          [hclwrite.Attribute "name" (cty.StringVal "prj")]]
  /\ (convertGroups projectFirst sampleConverters []).1
     = [hclwrite.Block "resource" ["google_project"; "prj"]
          [hclwrite.Attribute "name" (cty.StringVal "prj")];
        hclwrite.Block "resource" ["google_compute_instance"; "vm"]
          [hclwrite.Attribute "name" (cty.StringVal "vm")]]
  /\ is_Some (ConvertAlong plainBytes formatUnchanged
                instanceFirst sampleConverters).1
  /\ ConvertAlong plainBytes formatUnchanged instanceFirst sampleConverters
     <> ConvertAlong plainBytes formatUnchanged projectFirst sampleConverters.
Proof.
  split_and!.
  - apply sampleRun_instanceFirst.
  - apply sampleRun_projectFirst.
  - reflexivity.
  - reflexivity.
  - vm_compute. eauto.
  - vm_compute. discriminate.
Qed.

Lemma Convert_runs_agree_up_to_group_order_witness :
  ((exists e1 e2,
      ConvertAlong plainBytes formatUnchanged instanceFirst sampleConverters
      = (None, Some e1)
      /\ ConvertAlong plainBytes formatUnchanged projectFirst sampleConverters
         = (None, Some e2))
   \/ (convertGroups instanceFirst sampleConverters []
        = (mjoin (groupBlocks sampleConverters <$> instanceFirst), None)
       /\ convertGroups projectFirst sampleConverters []
          = (mjoin (groupBlocks sampleConverters <$> projectFirst), None)
       /\ ConvertAlong plainBytes formatUnchanged instanceFirst sampleConverters
          = formatUnchanged
              (plainBytes (mjoin (groupBlocks sampleConverters <$> instanceFirst)))
       /\ ConvertAlong plainBytes formatUnchanged projectFirst sampleConverters
          = formatUnchanged
              (plainBytes (mjoin (groupBlocks sampleConverters <$> projectFirst)))
       /\ mjoin (groupBlocks sampleConverters <$> instanceFirst)
          ≡ₚ mjoin (groupBlocks sampleConverters <$> projectFirst)))
  /\ (instanceFirst = projectFirst ->
      ConvertAlong plainBytes formatUnchanged instanceFirst sampleConverters
      = ConvertAlong plainBytes formatUnchanged projectFirst sampleConverters).
Proof.
  apply (Convert_runs_agree_up_to_group_order plainBytes formatUnchanged
           sampleAssets sampleNames sampleConverters instanceFirst projectFirst).
  - apply sampleGroups_instanceFirst.
  - apply sampleGroups_projectFirst.
Defined.

Lemma Convert_all_or_nothing_witness :
  ((ConvertAlong plainBytes formatUnchanged projectFirst projectsFailing).1 = None
   /\ is_Some
        (ConvertAlong plainBytes formatUnchanged projectFirst projectsFailing).2)
  /\ ConvertAlong plainBytes formatUnchanged instanceFirst projectsFailing
     = (None, Some "project conversion failed").
Proof.
  destruct (Convert_all_or_nothing plainBytes formatUnchanged
              sampleAssets sampleNames projectsFailing
              "google_project" [projectAsset]
              (failingConverter "project conversion failed") []
              "project conversion failed")
    as (Hnone & Hfirst & _).
  - vm_compute. reflexivity.
  - vm_compute. reflexivity.
  - reflexivity.
  - split.
    + apply Hnone, sampleRun_projectFirst.
    + apply (Hfirst [("google_compute_instance", [instanceAsset])] []).
      apply sampleGroups_instanceFirst.
Defined.

Lemma bucketBatch_instanceFirst :
  RangeOf
    (groupAssets ([instanceAsset] ++ bucketAsset :: [projectAsset]) sampleNames)
    instanceFirst.
Proof. range_of_sample. Qed.

Lemma instanceFirst_no_failure :
  Forall (fun group => groupFails sampleConverters group = false) instanceFirst.
Proof. repeat constructor. Qed.

Lemma Convert_drops_unresolved_asset_witness :
  groupAssets ([instanceAsset] ++ bucketAsset :: [projectAsset]) sampleNames
    !! "google_project"
  = Some [projectAsset]
  /\ (convertGroups instanceFirst sampleConverters []).1
     = [hclwrite.Block "resource" ["google_compute_instance"; "vm"]
          [hclwrite.Attribute "name" (cty.StringVal "vm")];
        hclwrite.Block "resource" ["google_project"; "prj"]
          [hclwrite.Attribute "name" (cty.StringVal "prj")]]
  /\ ConvertAlong plainBytes formatUnchanged instanceFirst sampleConverters
     = formatUnchanged
         (plainBytes (mjoin (groupBlocks sampleConverters <$> instanceFirst))).
Proof.
  destruct (Convert_drops_unresolved_asset plainBytes formatUnchanged
              [instanceAsset] bucketAsset [projectAsset]
              sampleNames sampleConverters)
    as (Hgroups & Hruns & _).
  - vm_compute. reflexivity.
  - destruct (Hruns instanceFirst bucketBatch_instanceFirst
                instanceFirst_no_failure) as [Hfile Hout].
    split_and!.
    + rewrite Hgroups. vm_compute. reflexivity.
    + rewrite Hfile. reflexivity.
    + exact Hout.
Defined.

Lemma bucketBatch_bucketFirst :
  RangeOf (groupAssets [instanceAsset; bucketAsset; projectAsset] namesWithBucket)
    bucketFirst.
Proof. range_of_sample. Qed.

Lemma Convert_skips_group_without_converter_witness :
  groupAssets [instanceAsset; bucketAsset; projectAsset] namesWithBucket
    !! "google_storage_bucket"
  = Some [bucketAsset]
  /\ (convertGroups bucketFirst sampleConverters []).1
     = [hclwrite.Block "resource" ["google_compute_instance"; "vm"]
          [hclwrite.Attribute "name" (cty.StringVal "vm")];
        hclwrite.Block "resource" ["google_project"; "prj"]
          [hclwrite.Attribute "name" (cty.StringVal "prj")]]
  /\ ConvertAlong plainBytes formatUnchanged bucketFirst sampleConverters
     = formatUnchanged
         (plainBytes (mjoin (groupBlocks sampleConverters <$> instanceFirst))).
Proof.
  destruct (Convert_skips_group_without_converter plainBytes formatUnchanged
              [instanceAsset; bucketAsset; projectAsset] namesWithBucket
              sampleConverters "google_storage_bucket")
    as (Hgroups & Hruns & _).
  - vm_compute. reflexivity.
  - destruct (Hruns bucketFirst bucketBatch_bucketFirst) as [Hfile Hout].
    { repeat constructor; intros _; vm_compute; reflexivity. }
    split_and!.
    + rewrite Hgroups. vm_compute. reflexivity.
    + rewrite Hfile. reflexivity.
    + rewrite Hout. reflexivity.
Defined.

(** ** The pattern-based resolver *)

Lemma MatchString_skip c nameRegex name :
  regexp.MatchString nameRegex name = true ->
  regexp.MatchString nameRegex (String c name) = true.
Proof. intros Hmatch. simpl. rewrite Hmatch. apply orb_true_r. Qed.

(** A match found in a name is found behind any prefix of it. *)
Lemma MatchString_behind_prefix prefix nameRegex name :
  regexp.MatchString nameRegex name = true ->
  regexp.MatchString nameRegex (prefix +:+ name) = true.
Proof.
  intros Hmatch. induction prefix as [|c prefix IH]; [done|].
  by apply MatchString_skip.
Qed.

Lemma MatchString_fullyQualified service nameRegex bare :
  regexp.MatchString nameRegex bare = true ->
  regexp.MatchString nameRegex (fullyQualified service bare) = true.
Proof.
  intros Hmatch. unfold fullyQualified.
  by do 3 apply MatchString_behind_prefix.
Qed.

(** Some entry matches: the resolver finds a converter name. *)
Lemma tryGetConverterNameByAssetNameRegex_found name table nameRegex converterName :
  (nameRegex, converterName) ∈ table ->
  regexp.MatchString nameRegex name = true ->
  (tryGetConverterNameByAssetNameRegex name table).2 = true.
Proof.
  intros Hin Hmatch.
  induction table as [|[nameRegex' converterName'] table IH]; [by inversion Hin|].
  simpl. destruct (regexp.MatchString nameRegex' name) eqn:Hmatch'; [done|].
  apply IH. apply elem_of_cons in Hin as [[= -> ->]|Hin]; [congruence|done].
Qed.

(** Every entry that matches maps to the same name: that name is found. *)
Lemma tryGetConverterNameByAssetNameRegex_exclusive
    name table nameRegex converterName :
  (nameRegex, converterName) ∈ table ->
  regexp.MatchString nameRegex name = true ->
  (forall nameRegex' converterName',
     (nameRegex', converterName') ∈ table ->
     regexp.MatchString nameRegex' name = true ->
     converterName' = converterName) ->
  tryGetConverterNameByAssetNameRegex name table = (converterName, true).
Proof.
  intros Hin Hmatch Hexcl.
  induction table as [|[nameRegex' converterName'] table IH]; [by inversion Hin|].
  simpl. destruct (regexp.MatchString nameRegex' name) eqn:Hmatch'.
  - f_equal. apply (Hexcl nameRegex'); [left|done].
  - apply IH.
    + apply elem_of_cons in Hin as [[= -> ->]|Hin]; [congruence|done].
    + intros ? ? Hin'. apply Hexcl. by right.
Qed.

(** C7: take an entry of the pattern table and a resource name its
    pattern matches in bare form.  The resolver finds a converter name for
    the bare name and for the name behind a source-service URL segment,
    whatever the order in which the table is iterated each time; and when
    the patterns are mutually exclusive on the name (no entry that matches
    it maps to another converter name), both lookups return the converter
    name of that entry. *)
Theorem tryGetConverterNameByAssetNameRegex_prefix_tolerant
    order1 order2 nameRegex converterName bare service :
  order1 ≡ₚ order2 ->
  (nameRegex, converterName) ∈ order1 ->
  regexp.MatchString nameRegex bare = true ->
  (tryGetConverterNameByAssetNameRegex bare order1).2 = true
  /\ (tryGetConverterNameByAssetNameRegex (fullyQualified service bare) order2).2
     = true
  /\ ((forall nameRegex' converterName',
         (nameRegex', converterName') ∈ order1 ->
         regexp.MatchString nameRegex' (fullyQualified service bare) = true ->
         converterName' = converterName) ->
      tryGetConverterNameByAssetNameRegex bare order1 = (converterName, true)
      /\ tryGetConverterNameByAssetNameRegex (fullyQualified service bare) order2
         = (converterName, true)).
Proof.
  intros Hperm Hin Hmatch.
  assert ((nameRegex, converterName) ∈ order2) as Hin2 by (by rewrite <- Hperm).
  pose proof (MatchString_fullyQualified service _ _ Hmatch) as Hmatch2.
  split_and!.
  - by eapply tryGetConverterNameByAssetNameRegex_found.
  - by eapply tryGetConverterNameByAssetNameRegex_found.
  - intros Hexcl. split.
    + eapply tryGetConverterNameByAssetNameRegex_exclusive; [done..|].
      intros nameRegex' converterName' Hin' Hmatch'.
      apply (Hexcl nameRegex'); [done|].
      by apply MatchString_fullyQualified.
    + eapply tryGetConverterNameByAssetNameRegex_exclusive; [done..|].
      intros nameRegex' converterName' Hin' Hmatch'.
      apply (Hexcl nameRegex'); [by rewrite Hperm|done].
Qed.

(** The four lookups of [TestTryGetConverterNameByAssetNameRegex], in
    both orders of the table. *)
Example test_regional_fully_qualified :
  tryGetConverterNameByAssetNameRegex
    "//compute.googleapis.com/projects/myproj/regions/us-central1/forwardingRules/test-1"
    converterNamesPerRegex
  = ("google_compute_forwarding_rule", true)
  /\ tryGetConverterNameByAssetNameRegex
       "//compute.googleapis.com/projects/myproj/regions/us-central1/forwardingRules/test-1"
       (reverse converterNamesPerRegex)
     = ("google_compute_forwarding_rule", true).
Proof. split; vm_compute; reflexivity. Qed.

Example test_regional_bare :
  tryGetConverterNameByAssetNameRegex
    "projects/myproj/regions/us-central1/forwardingRules/test-1"
    converterNamesPerRegex
  = ("google_compute_forwarding_rule", true)
  /\ tryGetConverterNameByAssetNameRegex
       "projects/myproj/regions/us-central1/forwardingRules/test-1"
       (reverse converterNamesPerRegex)
     = ("google_compute_forwarding_rule", true).
Proof. split; vm_compute; reflexivity. Qed.

Example test_global_fully_qualified :
  tryGetConverterNameByAssetNameRegex
    "//compute.googleapis.com/projects/myproj/global/forwardingRules/fr"
    converterNamesPerRegex
  = ("compute_global_forwarding_rule", true)
  /\ tryGetConverterNameByAssetNameRegex
       "//compute.googleapis.com/projects/myproj/global/forwardingRules/fr"
       (reverse converterNamesPerRegex)
     = ("compute_global_forwarding_rule", true).
Proof. split; vm_compute; reflexivity. Qed.

Example test_global_bare :
  tryGetConverterNameByAssetNameRegex
    "projects/myproj/global/forwardingRules/fr" converterNamesPerRegex
  = ("compute_global_forwarding_rule", true)
  /\ tryGetConverterNameByAssetNameRegex
       "projects/myproj/global/forwardingRules/fr"
       (reverse converterNamesPerRegex)
     = ("compute_global_forwarding_rule", true).
Proof. split; vm_compute; reflexivity. Qed.

Lemma tryGetConverterNameByAssetNameRegex_prefix_tolerant_witness :
  tryGetConverterNameByAssetNameRegex
    "projects/myproj/regions/us-central1/forwardingRules/test-1"
    converterNamesPerRegex
  = ("google_compute_forwarding_rule", true)
  /\ tryGetConverterNameByAssetNameRegex
       (fullyQualified "compute.googleapis.com"
          "projects/myproj/regions/us-central1/forwardingRules/test-1")
       (reverse converterNamesPerRegex)
     = ("google_compute_forwarding_rule", true).
Proof.
  apply (tryGetConverterNameByAssetNameRegex_prefix_tolerant
           converterNamesPerRegex (reverse converterNamesPerRegex)
           forwardingRuleRegex "google_compute_forwarding_rule"
           "projects/myproj/regions/us-central1/forwardingRules/test-1"
           "compute.googleapis.com").
  - symmetry. apply reverse_Permutation.
  - left.
  - vm_compute. reflexivity.
  - intros nameRegex' converterName' Hin Hmatch.
    apply list_elem_of_In in Hin. simpl in Hin.
    destruct Hin as [[= <- <-]|[[= <- <-]|[]]]; [reflexivity|].
    vm_compute in Hmatch. discriminate.
Defined.

(** * Further properties *)

(** ** ParseFieldValue *)

Lemma Split_nonempty s sep : strings.Split s sep <> [].
Proof.
  destruct s as [|c s]; simpl; [done|].
  destruct (Ascii.eqb c sep); [done|]. by destruct (strings.Split s sep).
Qed.

(** Splitting around a separator splits both sides. *)
Lemma Split_app s1 s2 sep :
  strings.Split (s1 +:+ String sep s2) sep
  = strings.Split s1 sep ++ strings.Split s2 sep.
Proof.
  induction s1 as [|c s1 IH]; simpl.
  - by rewrite Ascii.eqb_refl.
  - destruct (Ascii.eqb c sep); rewrite IH; [done|].
    pose proof (Split_nonempty s1 sep).
    by destruct (strings.Split s1 sep).
Qed.

Lemma Split_without_separator s sep :
  strings.ContainsRune s sep = false -> strings.Split s sep = [s].
Proof.
  induction s as [|c s IH]; simpl; [done|].
  intros [Hc Hs]%orb_false_iff. by rewrite Hc, IH.
Qed.

Lemma Split_Join elems sep :
  elems <> [] ->
  Forall (fun elem => strings.ContainsRune elem sep = false) elems ->
  strings.Split (strings.Join elems sep) sep = elems.
Proof.
  intros Hne Hall. induction Hall as [|elem elems Helem Hall IH]; [done|].
  destruct elems as [|elem' elems].
  - by apply Split_without_separator.
  - change (strings.Join (elem :: elem' :: elems) sep)
      with (elem +:+ String sep (strings.Join (elem' :: elems) sep)).
    rewrite Split_app, IH by done. by rewrite Split_without_separator.
Qed.

Lemma Split_pieces_without_separator s sep :
  Forall (fun piece => strings.ContainsRune piece sep = false)
    (strings.Split s sep).
Proof.
  induction s as [|c s IH]; simpl.
  - by repeat constructor.
  - destruct (Ascii.eqb c sep) eqn:Hc; [by constructor|].
    destruct (strings.Split s sep) as [|piece pieces].
    + constructor; [|constructor]. simpl. by rewrite Hc.
    + inversion IH; subst. constructor; [|done]. simpl. by rewrite Hc.
Qed.

Lemma valueAfter_cons name item value fragments :
  valueAfter name (item :: value :: fragments)
  = if String.eqb item name then value
    else valueAfter name (value :: fragments).
Proof. reflexivity. Qed.

(** The loop of [ParseFieldValue] returns the value after the first
    fragment equal to [name] that has a successor. *)
Lemma ParseFieldValue_valueAfter url name :
  ParseFieldValue url name = valueAfter name (strings.Split url slash).
Proof.
  unfold ParseFieldValue.
  set (fragments := strings.Split url slash).
  enough (forall seen items,
            fragments = seen ++ items ->
            (fix range (items : list string) (ix : nat) : string :=
               match items with
               | [] => EmptyString
               | item :: items' =>
                   if String.eqb item name && (ix + 1 <? length fragments)
                   then default EmptyString (fragments !! (ix + 1))
                   else range items' (S ix)
               end) items (length seen)
            = valueAfter name items) as Hloop by (by apply (Hloop [])).
  intros seen items. revert seen.
  induction items as [|item items IH]; intros seen Hfragments; [done|].
  assert (fragments = (seen ++ [item]) ++ items) as Hnext
    by (by rewrite <- app_assoc).
  specialize (IH _ Hnext). rewrite length_app in IH. simpl in IH.
  replace (length seen + 1) with (S (length seen)) in * by lia.
  destruct items as [|value items].
  - simpl. rewrite Hfragments, length_app. simpl.
    replace (S (length seen) <? length seen + 1) with false
      by (symmetry; apply Nat.ltb_ge; lia).
    by rewrite andb_false_r.
  - rewrite valueAfter_cons, <- IH.
    destruct (String.eqb item name); simpl; [|done].
    assert ((S (length seen) <? length fragments) = true) as ->.
    { apply Nat.ltb_lt. rewrite Hfragments, length_app. simpl. lia. }
    assert (fragments !! S (length seen) = Some value) as ->; [|done].
    rewrite Hnext, lookup_app_r; rewrite length_app; simpl; [|lia].
    by replace (S (length seen) - (length seen + 1)) with 0 by lia.
Qed.

Lemma valueAfter_skip name seen fragments :
  name ∉ seen -> valueAfter name (seen ++ fragments) = valueAfter name fragments.
Proof.
  induction seen as [|item seen IH]; intros Hseen; [done|].
  apply not_elem_of_cons in Hseen as [Hitem Hseen].
  rewrite <- IH by done. rewrite <- app_comm_cons.
  destruct (seen ++ fragments) as [|value rest]; [done|].
  rewrite valueAfter_cons.
  by rewrite (proj2 (String.eqb_neq item name)) by done.
Qed.

Lemma valueAfter_only_last name fragments :
  (forall ix, fragments !! ix = Some name -> S ix = length fragments) ->
  valueAfter name fragments = EmptyString.
Proof.
  induction fragments as [|item fragments IH]; intros Hlast; [done|].
  destruct fragments as [|value fragments]; [done|].
  rewrite valueAfter_cons.
  destruct (String.eqb item name) eqn:Hitem.
  - apply String.eqb_eq in Hitem as ->. by specialize (Hlast 0 eq_refl).
  - apply IH. intros ix Hix. by specialize (Hlast (S ix) Hix) as [= ->].
Qed.

Lemma valueAfter_follows_name name fragments :
  valueAfter name fragments = EmptyString
  \/ exists ix,
       fragments !! ix = Some name
       /\ fragments !! S ix = Some (valueAfter name fragments).
Proof.
  induction fragments as [|item fragments IH]; [by left|].
  destruct fragments as [|value fragments]; [by left|].
  rewrite valueAfter_cons.
  destruct (String.eqb item name) eqn:Hitem.
  - apply String.eqb_eq in Hitem as ->. right. by exists 0.
  - destruct IH as [IH|(ix & Hname & Hvalue)]; [by left|].
    right. by exists (S ix).
Qed.

(** X1: in a path whose fragments hold no slash, the value after the
    first fragment equal to [name] is returned, when there is one. *)
Theorem ParseFieldValue_finds_value seen name value rest :
  Forall (fun fragment => strings.ContainsRune fragment slash = false)
    (seen ++ name :: value :: rest) ->
  name ∉ seen ->
  ParseFieldValue (strings.Join (seen ++ name :: value :: rest) slash) name
  = value.
Proof.
  intros Hfragments Hseen.
  rewrite ParseFieldValue_valueAfter, Split_Join by (done || by destruct seen).
  rewrite valueAfter_skip, valueAfter_cons by done.
  by rewrite String.eqb_refl.
Qed.

Lemma ParseFieldValue_finds_value_witness :
  ParseFieldValue
    (strings.Join
       (["projects"; "myproj"] ++ "regions" :: "us-central1"
          :: ["forwardingRules"; "regions"; "other"])
       slash)
    "regions"
  = "us-central1".
Proof.
  apply (ParseFieldValue_finds_value
           ["projects"; "myproj"] "regions" "us-central1"
           ["forwardingRules"; "regions"; "other"]).
  - repeat constructor.
  - intros Hin. apply list_elem_of_In in Hin. simpl in Hin.
    intuition discriminate.
Defined.

(** X2: when [name] is no fragment of the url, or only its last one,
    [ParseFieldValue] returns the empty string. *)
Theorem ParseFieldValue_without_value url name :
  (forall ix,
     strings.Split url slash !! ix = Some name ->
     S ix = length (strings.Split url slash)) ->
  ParseFieldValue url name = EmptyString.
Proof.
  intros Hlast. rewrite ParseFieldValue_valueAfter.
  by apply valueAfter_only_last.
Qed.

Lemma ParseFieldValue_without_value_witness :
  ParseFieldValue "projects/myproj/zones" "zones" = EmptyString.
Proof.
  apply (ParseFieldValue_without_value "projects/myproj/zones" "zones").
  intros [|[|[|ix]]]; vm_compute; congruence.
Defined.

(** X3: what [ParseFieldValue] returns holds no slash, and it is the empty
    string or the fragment that follows a fragment equal to [name]. *)
Theorem ParseFieldValue_returns_fragment url name :
  strings.ContainsRune (ParseFieldValue url name) slash = false
  /\ (ParseFieldValue url name = EmptyString
      \/ exists ix,
           strings.Split url slash !! ix = Some name
           /\ strings.Split url slash !! S ix = Some (ParseFieldValue url name)).
Proof.
  rewrite ParseFieldValue_valueAfter.
  pose proof (valueAfter_follows_name name (strings.Split url slash)) as Hvalue.
  split; [|done].
  destruct Hvalue as [->|(ix & _ & Hvalue)]; [done|].
  pose proof (Split_pieces_without_separator url slash) as Hpieces.
  rewrite Forall_forall in Hpieces.
  by apply list_elem_of_lookup_2, Hpieces in Hvalue.
Qed.

(** X4: a name read from a bare resource name is read as well from the
    name behind a source-service URL segment, for every field name that is
    neither empty nor the service itself. *)
Theorem ParseFieldValue_fullyQualified service bare name :
  strings.ContainsRune service slash = false ->
  name <> EmptyString ->
  name <> service ->
  ParseFieldValue (fullyQualified service bare) name = ParseFieldValue bare name.
Proof.
  intros Hservice Hempty Hname.
  rewrite !ParseFieldValue_valueAfter.
  assert (strings.Split (fullyQualified service bare) slash
          = [EmptyString; EmptyString; service] ++ strings.Split bare slash)
    as ->.
  { change (fullyQualified service bare)
      with (String slash (String slash (service +:+ String slash bare))).
    change (strings.Split (String slash (String slash ?s)) slash)
      with (EmptyString :: EmptyString :: strings.Split s slash).
    by rewrite Split_app, Split_without_separator. }
  apply valueAfter_skip.
  intros Hin. apply list_elem_of_In in Hin. simpl in Hin.
  intuition congruence.
Qed.

Lemma ParseFieldValue_fullyQualified_witness :
  ParseFieldValue
    (fullyQualified "compute.googleapis.com" "projects/myproj/regions/us-central1")
    "regions"
  = ParseFieldValue "projects/myproj/regions/us-central1" "regions".
Proof.
  apply (ParseFieldValue_fullyQualified "compute.googleapis.com"
           "projects/myproj/regions/us-central1" "regions");
    [reflexivity | discriminate | discriminate].
Defined.

(** ** normalizeFlattenedMap, pass by pass *)

Lemma foldr_max_zero {A} (d : A -> nat) (l : list A) :
  foldr (fun v acc => d v `max` acc) 0 l = 0 <-> Forall (fun v => d v = 0) l.
Proof.
  induction l as [|v l IH]; simpl.
  - split; [constructor|done].
  - rewrite Forall_cons, <- IH. lia.
Qed.

Lemma map_fold_max_zero {A} (d : A -> nat) (mp : gmap string A) :
  map_fold (fun _ v acc => d v `max` acc) 0 mp = 0
  <-> map_Forall (fun _ v => d v = 0) mp.
Proof.
  induction mp as [|k v mp Hk IH] using map_ind.
  - rewrite map_fold_empty. split; [intros _; apply map_Forall_empty|done].
  - rewrite map_fold_insert_L; [| |done].
    + rewrite map_Forall_insert, <- IH by done. lia.
    + intros. lia.
Qed.

Lemma map_fold_max_pred {A} (d d' : A -> nat) (mp : gmap string A) :
  map_Forall (fun _ v => d' v = pred (d v)) mp ->
  map_fold (fun _ v acc => d' v `max` acc) 0 mp
  = pred (map_fold (fun _ v acc => d v `max` acc) 0 mp).
Proof.
  induction mp as [|k v mp Hk IH] using map_ind; intros Hall.
  - by rewrite !map_fold_empty.
  - apply map_Forall_insert in Hall as [Hv Hall]; [|done].
    rewrite !map_fold_insert_L; [|intros; lia|done|intros; lia|done].
    rewrite Hv, IH by done. lia.
Qed.

Lemma containsSet_setDepth obj :
  containsSet obj = false <-> setDepth obj = 0.
Proof.
  induction obj as [| | | |arr IH|mp IH|items _| | |typeName held IH]
    using any_ind_nested; simpl; try done.
  - rewrite existsb_false_Forall, foldr_max_zero.
    rewrite !Forall_forall. rewrite Forall_forall in IH.
    split; intros Hall v Hv; apply (IH v Hv), Hall, Hv.
  - rewrite map_fold_orb_false, map_fold_max_zero.
    split; intros Hall k v Hk; apply (IH k v Hk), (Hall k v Hk).
  - rewrite existsb_false_Forall, foldr_max_zero.
    rewrite !Forall_forall. rewrite Forall_forall in IH.
    split; intros Hall v Hv; apply (IH v Hv), Hall, Hv.
Qed.

Lemma setDepth_after_pass obj :
  noHiddenSets obj = true ->
  setDepth (normalizeFlattenedMap obj) = pred (setDepth obj).
Proof.
  induction obj as [| | | |arr IH|mp IH|items _| | |typeName held _]
    using any_ind_nested;
    try done; cbn [normalizeFlattenedMap setDepth noHiddenSets].
  - rewrite forallb_true_Forall. intros Hseen.
    induction IH as [|v arr Hv _ IHarr]; [done|].
    apply Forall_cons in Hseen as [Hseenv Hseen].
    rewrite fmap_cons. cbn [foldr]. rewrite Hv, IHarr by done. lia.
  - rewrite map_fold_andb_true. intros Hseen. rewrite map_fold_fmap.
    apply (map_fold_max_pred setDepth
             (fun v => setDepth (normalizeFlattenedMap v))).
    intros k v Hk. apply (IH k v Hk), (Hseen k v Hk).
  - intros Hseen%negb_true_iff.
    rewrite existsb_false_Forall in Hseen.
    apply (Forall_impl _ (fun v => setDepth v = 0)) in Hseen;
      [|by intros v ?%containsSet_setDepth].
    apply foldr_max_zero in Hseen. by rewrite Hseen.
Qed.

Lemma noHiddenSets_after_pass obj :
  noHiddenSets obj = true -> noHiddenSets (normalizeFlattenedMap obj) = true.
Proof.
  induction obj as [| | | |arr IH|mp IH|items _| | |typeName held _]
    using any_ind_nested; simpl; try done.
  - rewrite !forallb_true_Forall. intros Hseen.
    apply Forall_fmap, Forall_forall. intros v Hv.
    rewrite Forall_forall in IH, Hseen. by apply (IH v Hv), Hseen.
  - rewrite !map_fold_andb_true. intros Hseen.
    apply map_Forall_fmap. intros k v Hk. by apply (IH k v Hk), (Hseen k v Hk).
Qed.

Lemma passes_keep_noHiddenSets n obj :
  noHiddenSets obj = true ->
  noHiddenSets (Nat.iter n normalizeFlattenedMap obj) = true.
Proof.
  intros Hseen. induction n as [|n IH]; [done|].
  simpl. by apply noHiddenSets_after_pass.
Qed.

Lemma setDepth_passes n obj :
  noHiddenSets obj = true ->
  setDepth (Nat.iter n normalizeFlattenedMap obj) = setDepth obj - n.
Proof.
  intros Hseen. induction n as [|n IH]; simpl; [lia|].
  rewrite setDepth_after_pass, IH by (by apply passes_keep_noHiddenSets). lia.
Qed.

(** X5: in a tree where no set is held by a value of a type the type
    switch does not look into, one pass of the normalizer takes away
    exactly the outermost level of sets: the depth to which sets are
    nested in sets goes down by one (and stays 0 when there is no set). *)
Theorem normalizeFlattenedMap_removes_one_level obj :
  noHiddenSets obj = true ->
  setDepth (normalizeFlattenedMap obj) = pred (setDepth obj).
Proof. apply setDepth_after_pass. Qed.

Lemma normalizeFlattenedMap_removes_one_level_witness :
  setDepth (normalizeFlattenedMap nestedSets) = pred (setDepth nestedSets).
Proof.
  apply (normalizeFlattenedMap_removes_one_level nestedSets).
  vm_compute. reflexivity.
Defined.

(** X6: in such a tree, as many passes of the normalizer as sets are
    nested in sets leave a tree without any set. *)
Theorem normalizeFlattenedMap_passes_remove_sets n obj :
  noHiddenSets obj = true ->
  setDepth obj <= n ->
  containsSet (Nat.iter n normalizeFlattenedMap obj) = false.
Proof.
  intros Hseen Hdepth. apply containsSet_setDepth.
  rewrite setDepth_passes by done. lia.
Qed.

Lemma normalizeFlattenedMap_passes_remove_sets_witness :
  containsSet (Nat.iter 2 normalizeFlattenedMap nestedSets) = false.
Proof.
  apply (normalizeFlattenedMap_passes_remove_sets 2 nestedSets).
  - vm_compute. reflexivity.
  - vm_compute. lia.
Defined.

(** X7: a tree that holds no set at any depth, and in whose slices and
    maps the normalizer comes upon no nil slice or map, is returned as it
    is; a nil slice or map comes back empty and not nil, and a set held
    by a value of another type is left where it is. *)
Theorem normalizeFlattenedMap_fixes_set_free_trees obj :
  (containsSet obj = false ->
   reachesNil obj = false ->
   normalizeFlattenedMap obj = obj)
  /\ normalizeFlattenedMap schema.NilSlice = schema.Slice []
  /\ normalizeFlattenedMap schema.NilStringMap = schema.StringMap ∅
  /\ forall typeName held,
       normalizeFlattenedMap (schema.Other typeName held)
       = schema.Other typeName held.
Proof.
  split; [apply normalizeFlattenedMap_without_sets|done].
Qed.

Lemma normalizeFlattenedMap_fixes_set_free_trees_witness :
  normalizeFlattenedMap setFreeTree = setFreeTree.
Proof.
  apply (normalizeFlattenedMap_fixes_set_free_trees setFreeTree);
    vm_compute; reflexivity.
Defined.

(** X8: in a tree where no set holds a set and no set is held by a value
    of another type, one pass removes every set; and when no nil slice or
    map is come upon in the items of a set either, a second pass changes
    nothing. *)
Theorem normalizeFlattenedMap_flat_sets obj :
  setsHoldNoSets obj = true ->
  noHiddenSets obj = true ->
  containsSet (normalizeFlattenedMap obj) = false
  /\ (setsReachNoNil obj = true ->
      normalizeFlattenedMap (normalizeFlattenedMap obj)
      = normalizeFlattenedMap obj).
Proof.
  intros Hflat Hseen. split.
  - by apply normalizeFlattenedMap_removes_flat_sets.
  - intros Hnil. by apply normalizeFlattenedMap_idempotent_flat.
Qed.

Lemma normalizeFlattenedMap_flat_sets_witness :
  containsSet (normalizeFlattenedMap flatSets) = false
  /\ (setsReachNoNil flatSets = true ->
      normalizeFlattenedMap (normalizeFlattenedMap flatSets)
      = normalizeFlattenedMap flatSets).
Proof.
  apply (normalizeFlattenedMap_flat_sets flatSets); vm_compute; reflexivity.
Defined.

(** Outside these conditions the properties fail: a set in a typed slice
    stays through every pass, and a nil slice among the items of a set is
    changed by the second pass only. *)
Example normalizeFlattenedMap_hidden_set :
  containsSet (Nat.iter 3 normalizeFlattenedMap typedSliceWithSet) = true.
Proof. reflexivity. Qed.

Example normalizeFlattenedMap_nil_in_set :
  normalizeFlattenedMap (schema.Set_ [schema.NilSlice])
  = schema.Slice [schema.NilSlice]
  /\ normalizeFlattenedMap (schema.Slice [schema.NilSlice])
     = schema.Slice [schema.Slice []].
Proof. split; reflexivity. Qed.

(** ** hclWriteBlock, attribute by attribute *)

Lemma SetAttributeValue_fresh name val body :
  name ∉ (hclwrite.ItemName <$> body) ->
  hclwrite.SetAttributeValue name val body = body ++ [hclwrite.Attribute name val].
Proof.
  induction body as [|[n v|t ls b] body IH]; simpl; [done| |].
  - intros [Hn Hbody]%not_elem_of_cons.
    rewrite (proj2 (String.eqb_neq n name)) by done. by rewrite IH.
  - intros [_ Hbody]%not_elem_of_cons. by rewrite IH.
Qed.

(** Where nothing goes by the name [objKey] yet, the turn of the loop for
    [objKey] appends what it writes into an empty body. *)
Lemma writeAttribute_fresh write objKey objVal body :
  objKey ∉ (hclwrite.ItemName <$> body) ->
  writeAttribute write objKey objVal body
  = (body ++ (writeAttribute write objKey objVal []).1,
     (writeAttribute write objKey objVal []).2).
Proof.
  intros Hfresh. unfold writeAttribute.
  destruct (cty.IsNull objVal); [by rewrite app_nil_r|].
  destruct (cty.IsObjectType _).
  { by destruct (write objVal []) as [sub err]. }
  destruct (_ && (_ =? 0)); [by rewrite app_nil_r|].
  destruct (_ && _ && _).
  { destruct objVal; try (by rewrite app_nil_r);
      apply writeElementBlocks_app. }
  destruct (isEmptyString objVal); [by rewrite app_nil_r|].
  simpl. by rewrite SetAttributeValue_fresh.
Qed.

Lemma writeElementBlocks_names write objKey elems :
  Forall (fun it => hclwrite.ItemName it = objKey)
    (writeElementBlocks write objKey elems []).1.
Proof.
  induction elems as [|v elems IH]; simpl; [constructor|].
  destruct (write v []) as [sub [e|]]; simpl; [by repeat constructor|].
  rewrite writeElementBlocks_app. simpl. by constructor.
Qed.

(** Every item a turn of the loop writes goes by the attribute's name. *)
Lemma writeAttribute_names write objKey objVal :
  Forall (fun it => hclwrite.ItemName it = objKey)
    (writeAttribute write objKey objVal []).1.
Proof.
  unfold writeAttribute.
  destruct (cty.IsNull objVal); [constructor|].
  destruct (cty.IsObjectType _).
  { destruct (write objVal []) as [sub err]. by repeat constructor. }
  destruct (_ && (_ =? 0)); [constructor|].
  destruct (_ && _ && _).
  { destruct objVal; try constructor; apply writeElementBlocks_names. }
  destruct (isEmptyString objVal); [constructor|]. by repeat constructor.
Qed.

Lemma writeAttributes_in_order write attrs body :
  NoDup attrs.*1 ->
  (forall objKey, objKey ∈ attrs.*1 -> objKey ∉ (hclwrite.ItemName <$> body)) ->
  (writeAttributes write attrs body).2 = None ->
  (writeAttributes write attrs body).1
  = body ++ (attrs ≫= fun kv => (writeAttribute write kv.1 kv.2 []).1).
Proof.
  revert body. induction attrs as [|[k v] attrs IH]; intros body Hnodup Hfresh.
  { simpl. by rewrite app_nil_r. }
  rewrite fmap_cons in Hnodup. apply NoDup_cons in Hnodup as [Hk Hnodup].
  simpl. rewrite writeAttribute_fresh by (apply Hfresh; left).
  destruct (writeAttribute write k v []) as [items err] eqn:Hrun. simpl.
  destruct err as [e|]; [done|]. intros Hok.
  rewrite IH; [by rewrite <- app_assoc|done| |done].
  intros objKey HobjKey. rewrite fmap_app. apply not_elem_of_app. split.
  - apply Hfresh. by right.
  - intros (it & Hname & Hit)%list_elem_of_fmap.
    pose proof (writeAttribute_names write k v) as Hnames.
    rewrite Hrun in Hnames. simpl in Hnames.
    rewrite Forall_forall in Hnames. rewrite (Hnames it Hit) in Hname.
    by subst objKey.
Qed.

(** A well-typed object is written attribute after attribute. *)
Lemma hclWriteBlock_in_order attrs :
  cty.WellTyped (cty.ObjectVal attrs) ->
  hclWriteBlock (cty.ObjectVal attrs) []
  = (attrs ≫= fun kv => attributeItems kv.1 kv.2, None).
Proof.
  intros Hwt.
  pose proof (hclWriteBlock_ok _ Hwt (or_intror eq_refl) []) as Hok.
  rewrite hclWriteBlock_object in *.
  inversion Hwt as [| | | |? Hnodup _| | | |]; subst.
  pose proof (writeAttributes_in_order hclWriteBlock attrs [] Hnodup) as Horder.
  destruct (writeAttributes hclWriteBlock attrs []) as [body err].
  simpl in *. subst err. f_equal. apply Horder; [|done].
  intros ? _. apply not_elem_of_nil.
Qed.

Lemma namedItems_other_attributes key attrs :
  key ∉ attrs.*1 ->
  namedItems key (attrs ≫= fun kv => attributeItems kv.1 kv.2) = [].
Proof.
  induction attrs as [|[k v] attrs IH]; [done|].
  rewrite fmap_cons. intros [Hk Hattrs]%not_elem_of_cons.
  rewrite bind_cons, namedItems_app, IH, app_nil_r by done.
  unfold attributeItems. simpl.
  by rewrite namedItems_writeAttribute_other.
Qed.

Lemma namedItems_all_named key body :
  Forall (fun it => hclwrite.ItemName it = key) body ->
  namedItems key body = body.
Proof.
  unfold namedItems. induction 1 as [|it body Hit _ IH]; [done|].
  by rewrite filter_cons_True, IH.
Qed.

(** In the body of a well-typed object, the items that go by the name of
    an attribute are the ones that attribute writes. *)
Lemma namedItems_of_attribute attrs key val :
  cty.WellTyped (cty.ObjectVal attrs) ->
  (key, val) ∈ attrs ->
  namedItems key (hclWriteBlock (cty.ObjectVal attrs) []).1
  = attributeItems key val.
Proof.
  intros Hwt Hin. rewrite hclWriteBlock_in_order by done. simpl.
  inversion Hwt as [| | | |? Hnodup _| | | |]; subst.
  apply list_elem_of_split in Hin as (pre & post & ->).
  rewrite fmap_app, fmap_cons in Hnodup. simpl in Hnodup.
  apply NoDup_app in Hnodup as (_ & Hpre & Hpost).
  apply NoDup_cons in Hpost as [Hpost _].
  rewrite bind_app, bind_cons, !namedItems_app. simpl.
  rewrite !namedItems_other_attributes; [|done|].
  - simpl. rewrite app_nil_r. apply namedItems_all_named, writeAttribute_names.
  - intros Hk. apply (Hpre key Hk). left.
Qed.

Ltac well_typed :=
  repeat match goal with
         | |- cty.WellTyped _ => constructor
         | |- Forall _ _ => constructor
         | |- NoDup _ => constructor
         | |- _ /\ _ => split
         | |- _ = _ => reflexivity
         | |- _ ∉ _ =>
             let Hin := fresh "Hin" in
             intros Hin; apply list_elem_of_In in Hin; simpl in Hin;
             intuition discriminate
         end.

Ltac is_attribute := apply list_elem_of_In; simpl; tauto.

Lemma richInstance_WellTyped : cty.WellTyped richInstance.
Proof. unfold richInstance. well_typed. Qed.

Lemma ItemName_all_named key items :
  Forall (fun it => hclwrite.ItemName it = key) items ->
  hclwrite.ItemName <$> items = replicate (length items) key.
Proof.
  induction 1 as [|it items Hit _ IH]; [done|].
  rewrite fmap_cons, Hit, IH. done.
Qed.

(** X9: the body of a well-typed object is written attribute after
    attribute, in the order the object iterates over them: it is made of
    what each attribute writes, and what an attribute writes goes by the
    attribute's name. *)
Theorem hclWriteBlock_writes_attributes_in_order attrs :
  cty.WellTyped (cty.ObjectVal attrs) ->
  hclWriteBlock (cty.ObjectVal attrs) []
  = (attrs ≫= fun kv => attributeItems kv.1 kv.2, None)
  /\ hclwrite.ItemName <$> (hclWriteBlock (cty.ObjectVal attrs) []).1
     = attrs ≫= fun kv => replicate (length (attributeItems kv.1 kv.2)) kv.1.
Proof.
  intros Hwt. rewrite hclWriteBlock_in_order by done. split; [done|]. simpl.
  clear Hwt. induction attrs as [|[k v] attrs IH]; [done|].
  rewrite !bind_cons, fmap_app, IH. f_equal.
  apply ItemName_all_named, writeAttribute_names.
Qed.

Lemma hclWriteBlock_writes_attributes_in_order_witness :
  hclWriteBlock richInstance []
  = ([hclwrite.Block "boot_disk" []
        [hclwrite.Attribute "device" (cty.StringVal "sda")];
      hclwrite.Attribute "labels"
        (cty.MapVal cty.TyString [("env", cty.StringVal "prod")]);
      hclwrite.Attribute "name" (cty.StringVal "vm");
      hclwrite.Attribute "zones"
        (cty.ListVal cty.TyString [cty.StringVal "a"; cty.StringVal "b"])],
     None)
  /\ hclwrite.ItemName <$> (hclWriteBlock richInstance []).1
     = ["boot_disk"; "labels"; "name"; "zones"].
Proof.
  apply (hclWriteBlock_writes_attributes_in_order
           [("boot_disk", cty.ObjectVal [("device", cty.StringVal "sda")]);
            ("labels", cty.MapVal cty.TyString [("env", cty.StringVal "prod")]);
            ("name", cty.StringVal "vm");
            ("tags", cty.ListVal cty.TyString []);
            ("zones", cty.ListVal cty.TyString
                        [cty.StringVal "a"; cty.StringVal "b"])]).
  apply richInstance_WellTyped.
Defined.

(** X10: an attribute of a well-typed object whose value is an object
    (and not null) is written as one block named after the attribute,
    without labels, holding what writing that object yields; no flat
    attribute goes by its name. *)
Theorem hclWriteBlock_object_attribute_is_block attrs key val :
  cty.WellTyped (cty.ObjectVal attrs) ->
  (key, val) ∈ attrs ->
  cty.IsNull val = false ->
  cty.IsObjectType (cty.TypeOf val) = true ->
  namedItems key (hclWriteBlock (cty.ObjectVal attrs) []).1
  = [hclwrite.Block key [] (hclWriteBlock val []).1].
Proof.
  intros Hwt Hin Hnull Hobj. rewrite (namedItems_of_attribute _ _ val) by done.
  unfold attributeItems, writeAttribute. rewrite Hnull, Hobj.
  by destruct (hclWriteBlock val []).
Qed.

Lemma hclWriteBlock_object_attribute_is_block_witness :
  namedItems "boot_disk" (hclWriteBlock richInstance []).1
  = [hclwrite.Block "boot_disk" []
       (hclWriteBlock (cty.ObjectVal [("device", cty.StringVal "sda")]) []).1].
Proof.
  apply (hclWriteBlock_object_attribute_is_block _ "boot_disk"
           (cty.ObjectVal [("device", cty.StringVal "sda")])
           richInstance_WellTyped);
    [is_attribute | reflexivity | reflexivity].
Defined.

(** X11: an attribute of a well-typed object whose value is a number, a
    bool or a string other than the empty one is written as one flat
    attribute that holds the value. *)
Theorem hclWriteBlock_scalar_attribute attrs key val :
  cty.WellTyped (cty.ObjectVal attrs) ->
  (key, val) ∈ attrs ->
  (exists s, val = cty.StringVal s /\ s <> EmptyString)
  \/ (exists n, val = cty.NumberIntVal n)
  \/ (exists b, val = cty.BoolVal b) ->
  namedItems key (hclWriteBlock (cty.ObjectVal attrs) []).1
  = [hclwrite.Attribute key val].
Proof.
  intros Hwt Hin Hval. rewrite (namedItems_of_attribute _ _ val) by done.
  destruct Hval as [(s & -> & Hs)|[(n & ->)|(b & ->)]]; try done.
  unfold attributeItems, writeAttribute, isEmptyString. simpl.
  rewrite bool_decide_eq_false_2; [done|]. congruence.
Qed.

Lemma hclWriteBlock_scalar_attribute_witness :
  namedItems "name" (hclWriteBlock richInstance []).1
  = [hclwrite.Attribute "name" (cty.StringVal "vm")].
Proof.
  apply (hclWriteBlock_scalar_attribute _ "name" (cty.StringVal "vm")
           richInstance_WellTyped); [is_attribute|].
  left. exists "vm". split; [reflexivity | discriminate].
Defined.

(** X12: an attribute of a well-typed object whose value is a collection
    that is not empty and is a map (even a map of objects), or a list or a
    set of elements that are not objects, is written as one flat attribute
    that holds the whole collection, never as blocks. *)
Theorem hclWriteBlock_plain_collection_attribute attrs key val :
  cty.WellTyped (cty.ObjectVal attrs) ->
  (key, val) ∈ attrs ->
  cty.IsNull val = false ->
  cty.IsCollectionType (cty.TypeOf val) = true ->
  cty.LengthInt val <> 0 ->
  cty.IsMapType (cty.TypeOf val) = true
  \/ elementTypeIsObject (cty.TypeOf val) = false ->
  namedItems key (hclWriteBlock (cty.ObjectVal attrs) []).1
  = [hclwrite.Attribute key val].
Proof.
  intros Hwt Hin Hnull Hcoll Hlen Hplain.
  rewrite (namedItems_of_attribute _ _ val) by done.
  unfold attributeItems, writeAttribute. rewrite Hnull, Hcoll.
  apply Nat.eqb_neq in Hlen. rewrite Hlen.
  assert (cty.IsObjectType (cty.TypeOf val) = false) as ->
    by (by destruct (cty.TypeOf val)).
  assert (negb (cty.IsMapType (cty.TypeOf val))
          && elementTypeIsObject (cty.TypeOf val) = false) as Hrep
    by (destruct Hplain as [-> | ->]; [done|apply andb_false_r]).
  simpl. rewrite Hrep.
  assert (isEmptyString val = false) as ->; [|done].
  unfold isEmptyString. by destruct (cty.TypeOf val).
Qed.

Lemma hclWriteBlock_plain_collection_attribute_witness :
  namedItems "labels" (hclWriteBlock richInstance []).1
  = [hclwrite.Attribute "labels"
       (cty.MapVal cty.TyString [("env", cty.StringVal "prod")])].
Proof.
  apply (hclWriteBlock_plain_collection_attribute _ "labels"
           (cty.MapVal cty.TyString [("env", cty.StringVal "prod")])
           richInstance_WellTyped);
    [is_attribute | reflexivity | reflexivity | discriminate | by left].
Defined.

(** X13: an attribute of a well-typed object whose value is an empty
    list, set or map is left out, whatever the type of its elements:
    nothing in the written body goes by its name. *)
Theorem hclWriteBlock_omits_empty_collection attrs key val :
  cty.WellTyped (cty.ObjectVal attrs) ->
  (key, val) ∈ attrs ->
  cty.IsNull val = false ->
  cty.IsCollectionType (cty.TypeOf val) = true ->
  cty.LengthInt val = 0 ->
  key ∉ (hclwrite.ItemName <$> (hclWriteBlock (cty.ObjectVal attrs) []).1).
Proof.
  intros Hwt Hin Hnull Hcoll Hlen. apply namedItems_nil_not_elem.
  rewrite (namedItems_of_attribute _ _ val) by done.
  unfold attributeItems, writeAttribute. rewrite Hnull, Hcoll, Hlen.
  by destruct (cty.TypeOf val).
Qed.

Lemma hclWriteBlock_omits_empty_collection_witness :
  "tags" ∉ (hclwrite.ItemName <$> (hclWriteBlock richInstance []).1).
Proof.
  apply (hclWriteBlock_omits_empty_collection _ "tags"
           (cty.ListVal cty.TyString []) richInstance_WellTyped);
    [is_attribute | reflexivity..].
Defined.

(** X14: a well-typed value that is null or an object is written without
    error, into any body. *)
Theorem hclWriteBlock_succeeds_on_well_typed val body :
  cty.WellTyped val ->
  cty.IsNull val = true \/ cty.IsObjectType (cty.TypeOf val) = true ->
  (hclWriteBlock val body).2 = None.
Proof. intros Hwt Hobj. by apply hclWriteBlock_ok. Qed.

Lemma hclWriteBlock_succeeds_on_well_typed_witness :
  (hclWriteBlock richInstance []).2 = None.
Proof.
  apply (hclWriteBlock_succeeds_on_well_typed richInstance []).
  - apply richInstance_WellTyped.
  - by right.
Defined.

(** *** The errors of hclWriteBlock *)

Lemma writeElementBlocks_error write objKey elems body e :
  (writeElementBlocks write objKey elems body).2 = Some e ->
  exists listVal, listVal ∈ elems /\ (write listVal []).2 = Some e.
Proof.
  revert body. induction elems as [|v elems IH]; intros body; simpl; [done|].
  destruct (write v []) as [sub [e'|]] eqn:Hrun; simpl.
  - intros [= ->]. exists v. split; [left|by rewrite Hrun].
  - intros (listVal & Hin & Herr)%IH. exists listVal. split; [by right|done].
Qed.

Lemma writeAttribute_error write objKey objVal body e :
  (writeAttribute write objKey objVal body).2 = Some e ->
  (write objVal []).2 = Some e
  \/ exists listVal,
       listVal ∈ cty.Elements objVal /\ (write listVal []).2 = Some e.
Proof.
  unfold writeAttribute.
  destruct (cty.IsNull objVal); [done|].
  destruct (cty.IsObjectType _).
  { destruct (write objVal []) as [sub err]. by left. }
  destruct (_ && (_ =? 0)); [done|].
  destruct (_ && _ && _); [|by destruct (isEmptyString objVal)].
  destruct objVal; try done; intros Herr; right;
    by apply writeElementBlocks_error in Herr.
Qed.

Lemma writeAttributes_error write attrs body e :
  (writeAttributes write attrs body).2 = Some e ->
  exists kv,
    kv ∈ attrs
    /\ ((write kv.2 []).2 = Some e
        \/ exists listVal,
             listVal ∈ cty.Elements kv.2 /\ (write listVal []).2 = Some e).
Proof.
  revert body. induction attrs as [|[k v] attrs IH]; intros body; simpl; [done|].
  destruct (writeAttribute write k v body) as [body' [e'|]] eqn:Hrun; simpl.
  - intros [= ->]. exists (k, v). split; [left|].
    apply (writeAttribute_error write k v body). by rewrite Hrun.
  - intros (kv & Hin & Herr)%IH. exists kv. split; [by right|done].
Qed.

(** X15: the only error [hclWriteBlock] returns, from whatever depth of
    the value, is the one that names a type which is not an object type. *)
Theorem hclWriteBlock_only_error val body e :
  (hclWriteBlock val body).2 = Some e ->
  exists ty,
    cty.IsObjectType ty = false
    /\ e = Errorf_expect_object (cty.FriendlyName ty).
Proof.
  revert body.
  enough ((forall body, (hclWriteBlock val body).2 = Some e ->
             exists ty, cty.IsObjectType ty = false
                        /\ e = Errorf_expect_object (cty.FriendlyName ty))
          /\ Forall (fun v =>
                       forall body, (hclWriteBlock v body).2 = Some e ->
                         exists ty, cty.IsObjectType ty = false
                                    /\ e = Errorf_expect_object
                                             (cty.FriendlyName ty))
               (cty.Elements val)) by tauto.
  induction val as [val IH] using Value_ind_elements.
  split; [|by eapply Forall_impl; [exact IH|intros ? []]].
  intros body Herr.
  destruct (cty.IsNull val) eqn:Hnull.
  { by rewrite hclWriteBlock_null in Herr. }
  destruct (cty.IsObjectType (cty.TypeOf val)) eqn:Hobj.
  - destruct val as [| | | |attrs| | | |]; try done.
    rewrite hclWriteBlock_object in Herr.
    apply writeAttributes_error in Herr as ([k v] & Hin & Herr).
    simpl in IH. rewrite Forall_fmap, Forall_forall in IH.
    destruct (IH _ Hin) as [Hv Helems]. simpl in *.
    destruct Herr as [Herr|(listVal & HlistVal & Herr)]; [by eapply Hv|].
    rewrite Forall_forall in Helems. by eapply Helems.
  - rewrite hclWriteBlock_not_object in Herr by done.
    injection Herr as <-. eauto.
Qed.

Lemma hclWriteBlock_only_error_witness :
  exists ty,
    cty.IsObjectType ty = false
    /\ "expect object type only, but type = string"
       = Errorf_expect_object (cty.FriendlyName ty).
Proof.
  apply (hclWriteBlock_only_error
           (cty.ObjectVal
              [("disk", cty.ListVal diskType [cty.StringVal "sda"])]) []).
  reflexivity.
Defined.

(** ** Convert, group by group *)

(** X16: the group [Convert] hands to the converter of a name holds
    exactly the assets of the batch whose type resolves to that name, in
    the order of the batch, and no group is empty. *)
Theorem groupAssets_group assets converterNames name group :
  groupAssets assets converterNames !! name = Some group
  <-> group <> []
      /\ group
         = filter (fun asset => converterNames !! caiasset.Type_ asset = Some name)
             assets.
Proof.
  rewrite groupAssets_lookup.
  destruct (filter _ assets) as [|asset group']; split.
  - done.
  - by intros [? ->].
  - by intros [= <-].
  - by intros [_ ->].
Qed.

Lemma groupAssets_single assets converterNames name :
  Forall (fun asset =>
            converterNames !! caiasset.Type_ asset = Some name
            \/ converterNames !! caiasset.Type_ asset = None) assets ->
  map_to_list (groupAssets assets converterNames) = []
  \/ exists group,
       map_to_list (groupAssets assets converterNames) = [(name, group)].
Proof.
  intros Hall.
  assert (forall name', name' <> name ->
            groupAssets assets converterNames !! name' = None) as Hother.
  { intros name' Hne. rewrite groupAssets_lookup.
    replace (filter _ assets) with (@nil caiasset.Asset); [done|].
    symmetry. induction Hall as [|asset assets Hasset _ IH]; [done|].
    rewrite filter_cons_False; [done|]. destruct Hasset; congruence. }
  destruct (groupAssets assets converterNames !! name) as [group|] eqn:Hgroup.
  - right. exists group.
    replace (groupAssets assets converterNames) with ({[name := group]} : gmap _ _).
    + apply map_to_list_singleton.
    + apply map_eq. intros name'. destruct (decide (name' = name)) as [->|Hne].
      * by rewrite lookup_singleton_eq.
      * by rewrite lookup_singleton_ne, Hother.
  - left. apply map_to_list_empty_iff, map_eq. intros name'.
    rewrite lookup_empty. destruct (decide (name' = name)) as [->|Hne]; auto.
Qed.

Lemma writeResourceBlocks_well_typed items :
  Forall (fun resourceBlock =>
            cty.WellTyped (Value resourceBlock)
            /\ (cty.IsNull (Value resourceBlock) = true
                \/ cty.IsObjectType (cty.TypeOf (Value resourceBlock)) = true))
    items ->
  (writeResourceBlocks items []).2 = None.
Proof.
  induction 1 as [|rb items [Hwt Hobj] _ IH]; [done|]. simpl.
  pose proof (hclWriteBlock_ok _ Hwt Hobj []) as Hok.
  destruct (hclWriteBlock (Value rb) []) as [sub err]. simpl in Hok. subst err.
  by rewrite writeResourceBlocks_app.
Qed.

Section Convert_groups.

Context (FileBytes : hclwrite.Body -> string).
Context (printerFormat : string -> GoResult string).

(** X17: when every asset of the batch that resolves at all resolves to
    one and the same converter name, there is at most one group, and
    [Convert] returns the same result in every run. *)
Theorem Convert_single_group_deterministic
    assets converterNames converterMap name out1 out2 :
  Forall (fun asset =>
            converterNames !! caiasset.Type_ asset = Some name
            \/ converterNames !! caiasset.Type_ asset = None) assets ->
  Convert FileBytes printerFormat assets converterNames converterMap out1 ->
  Convert FileBytes printerFormat assets converterNames converterMap out2 ->
  out1 = out2.
Proof.
  intros Hall (order1 & Hrange1 & <-) (order2 & Hrange2 & <-).
  unfold RangeOf in *.
  destruct (groupAssets_single _ _ _ Hall) as [Hnone|[group Hone]].
  - rewrite Hnone in *.
    apply Permutation_nil_r in Hrange1, Hrange2. by subst.
  - rewrite Hone in *.
    apply Permutation_singleton_r in Hrange1, Hrange2. by subst.
Qed.

(** X18: when the converter of one group returns an error and no other
    group fails, every run of [Convert] returns that error and no
    document, whatever the order in which the groups are visited. *)
Theorem Convert_single_failure
    assets converterNames converterMap name v converter items e out :
  groupAssets assets converterNames !! name = Some v ->
  converterMap !! name = Some converter ->
  ConverterConvert converter v = (items, Some e) ->
  (forall name' v',
     groupAssets assets converterNames !! name' = Some v' ->
     name' <> name ->
     groupFails converterMap (name', v') = false) ->
  Convert FileBytes printerFormat assets converterNames converterMap out ->
  out = (None, Some e).
Proof.
  intros Hgroup Hconverter Hfails Hothers (order & Hrange & <-).
  pose proof (RangeOf_keys _ _ Hrange) as Hnodup.
  destruct (RangeOf_split _ _ _ _ Hrange Hgroup) as (pre & post & -> & _).
  assert (Forall (fun group => groupFails converterMap group = false) pre)
    as Hpre.
  { apply Forall_forall. intros [name' v'] Hin.
    apply Hothers.
    - apply (RangeOf_lookup _ _ _ _ Hrange), elem_of_app. by left.
    - intros ->. rewrite fmap_app in Hnodup.
      apply NoDup_app in Hnodup as (_ & Hdisjoint & _).
      apply (Hdisjoint name).
      + by apply (list_elem_of_fmap_2 fst) in Hin.
      + rewrite fmap_cons. left. }
  unfold ConvertAlong.
  rewrite convertGroups_app, (convertGroups_ok _ _ _ Hpre). simpl.
  by rewrite Hconverter, Hfails.
Qed.

(** X19: when every converter the batch reaches returns no error and
    only well-typed values that are null or objects, no run of [Convert]
    fails before the formatter: each run returns what the formatter makes
    of the file that holds the blocks of the groups in the order of that
    run. *)
Theorem Convert_well_typed_reaches_formatter
    assets converterNames converterMap out :
  (forall name v converter,
     groupAssets assets converterNames !! name = Some v ->
     converterMap !! name = Some converter ->
     (ConverterConvert converter v).2 = None
     /\ Forall (fun resourceBlock =>
                 cty.WellTyped (Value resourceBlock)
                 /\ (cty.IsNull (Value resourceBlock) = true
                     \/ cty.IsObjectType (cty.TypeOf (Value resourceBlock))
                        = true))
          (ConverterConvert converter v).1) ->
  Convert FileBytes printerFormat assets converterNames converterMap out ->
  exists order,
    RangeOf (groupAssets assets converterNames) order
    /\ out = printerFormat
               (FileBytes (mjoin (groupBlocks converterMap <$> order))).
Proof.
  intros Hconverters (order & Hrange & <-).
  exists order. split; [done|]. apply ConvertAlong_ok.
  apply Forall_forall. intros [name v] Hin.
  apply (RangeOf_lookup _ _ _ _ Hrange) in Hin.
  unfold groupFails. simpl.
  destruct (converterMap !! name) as [converter|] eqn:Hconverter; [|done].
  destruct (Hconverters _ _ _ Hin Hconverter) as [Hok Hitems].
  destruct (ConverterConvert converter v) as [items err]. simpl in *.
  subst err. apply bool_decide_eq_false.
  rewrite writeResourceBlocks_well_typed by done. by intros [? ?].
Qed.

(** X20: when no asset of the batch has its type in the resolution table
    (the empty batch too), [Convert] calls no converter and returns what
    the formatter makes of the empty file. *)
Theorem Convert_nothing_resolved assets converterNames converterMap out :
  Forall (fun asset => converterNames !! caiasset.Type_ asset = None) assets ->
  Convert FileBytes printerFormat assets converterNames converterMap out
  <-> out = printerFormat (FileBytes []).
Proof.
  intros Hall.
  assert (groupAssets assets converterNames = ∅) as Hgroups.
  { apply map_eq. intros name. rewrite groupAssets_lookup, lookup_empty.
    replace (filter _ assets) with (@nil caiasset.Asset); [done|].
    symmetry. induction Hall as [|asset assets Hasset _ IH]; [done|].
    rewrite filter_cons_False; [done|]. congruence. }
  unfold Convert, ConvertGroups, RangeOf. rewrite Hgroups, map_to_list_empty.
  split.
  - intros (order & ->%Permutation_nil_r & <-). done.
  - intros ->. by exists [].
Qed.

End Convert_groups.

Lemma sampleGroups_lookup name v :
  groupAssets sampleAssets sampleNames !! name = Some v ->
  (name, v) = ("google_compute_instance", [instanceAsset])
  \/ (name, v) = ("google_project", [projectAsset]).
Proof.
  intros Hin%(RangeOf_lookup _ _ _ _ sampleGroups_instanceFirst).
  apply list_elem_of_In in Hin. unfold instanceFirst in Hin. simpl in Hin.
  destruct Hin as [<-|[<-|[]]]; auto.
Qed.

Lemma instanceOnly_range :
  RangeOf (groupAssets [instanceAsset; bucketAsset] sampleNames)
    [("google_compute_instance", [instanceAsset])].
Proof. range_of_sample. Qed.

Lemma Convert_single_group_deterministic_witness :
  ConvertAlong plainBytes formatUnchanged
    (map_to_list (groupAssets [instanceAsset; bucketAsset] sampleNames))
    sampleConverters
  = ConvertAlong plainBytes formatUnchanged
      [("google_compute_instance", [instanceAsset])] sampleConverters.
Proof.
  apply (Convert_single_group_deterministic plainBytes formatUnchanged
           [instanceAsset; bucketAsset] sampleNames sampleConverters
           "google_compute_instance").
  - repeat constructor; vm_compute;
      first [left; reflexivity | right; reflexivity].
  - eexists. split; [apply RangeOf_exists|reflexivity].
  - eexists. split; [apply instanceOnly_range|reflexivity].
Defined.

Lemma Convert_single_failure_witness :
  ConvertAlong plainBytes formatUnchanged projectFirst projectsFailing
  = (None, Some "project conversion failed").
Proof.
  apply (Convert_single_failure plainBytes formatUnchanged
           sampleAssets sampleNames projectsFailing
           "google_project" [projectAsset]
           (failingConverter "project conversion failed") []).
  - vm_compute. reflexivity.
  - vm_compute. reflexivity.
  - reflexivity.
  - intros name' v' [[= -> ->]|[= -> ->]]%sampleGroups_lookup Hne;
      [vm_compute; reflexivity | done].
  - apply sampleRun_projectFirst.
Defined.

Lemma Convert_well_typed_reaches_formatter_witness :
  exists order,
    RangeOf (groupAssets sampleAssets sampleNames) order
    /\ ConvertAlong plainBytes formatUnchanged instanceFirst sampleConverters
       = formatUnchanged
           (plainBytes (mjoin (groupBlocks sampleConverters <$> order))).
Proof.
  apply (Convert_well_typed_reaches_formatter plainBytes formatUnchanged
           sampleAssets sampleNames sampleConverters).
  - intros name v converter [[= -> ->]|[= -> ->]]%sampleGroups_lookup Hconverter;
      vm_compute in Hconverter; injection Hconverter as <-;
      (split; [reflexivity|]); simpl; well_typed; by right.
  - apply sampleRun_instanceFirst.
Defined.

Lemma Convert_nothing_resolved_witness :
  Convert plainBytes formatUnchanged [bucketAsset] sampleNames sampleConverters
    (Some EmptyString, None)
  <-> (Some EmptyString, None) = formatUnchanged (plainBytes []).
Proof.
  apply (Convert_nothing_resolved plainBytes formatUnchanged
           [bucketAsset] sampleNames sampleConverters).
  repeat constructor.
Defined.

(** ** CreateConverterMap *)

Section CreateConverterMap_properties.

Context {SchemaMap : Type}.
Context (ResourcesMap : gmap string (Resource SchemaMap)).

Lemma CreateConverterMapAlong_snoc order name factory :
  CreateConverterMapAlong ResourcesMap (order ++ [(name, factory)])
  = match CreateConverterMapAlong ResourcesMap order, ResourcesMap !! name with
    | Some result, Some resource =>
        Some (<[name := factory name (Schema resource)]> result)
    | _, _ => None
    end.
Proof. unfold CreateConverterMapAlong. by rewrite foldl_app. Qed.

Lemma CreateConverterMapAlong_lookup
    (order : list (string * ConverterFactory SchemaMap)) :
  NoDup order.*1 ->
  Forall (fun entry => is_Some (ResourcesMap !! entry.1)) order ->
  exists result,
    CreateConverterMapAlong ResourcesMap order = Some result
    /\ forall name converter,
         result !! name = Some converter
         <-> exists factory resource,
               (name, factory) ∈ order
               /\ ResourcesMap !! name = Some resource
               /\ converter = factory name (Schema resource).
Proof.
  induction order as [|[k f] order IH] using rev_ind; intros Hnodup Hall.
  { exists ∅. split; [done|]. intros name converter. rewrite lookup_empty.
    split; [done|]. intros (? & ? & Hin & _). by apply elem_of_nil in Hin. }
  rewrite fmap_app in Hnodup. apply NoDup_app in Hnodup as (Hnodup & Hk & _).
  apply Forall_app in Hall as [Hall Hlast].
  apply Forall_cons in Hlast as [[resource Hresource] _]. simpl in *.
  destruct (IH Hnodup Hall) as (result & Hrun & Hlookup).
  rewrite CreateConverterMapAlong_snoc, Hrun, Hresource.
  eexists. split; [done|]. intros name converter.
  destruct (decide (name = k)) as [->|Hne].
  - rewrite lookup_insert_eq. split.
    + intros [= <-]. exists f, resource. split; [|done].
      apply elem_of_app. right. left.
    + intros (f' & resource' & Hin & Hresource' & ->).
      apply elem_of_app in Hin as [Hin|Hin].
      * apply (list_elem_of_fmap_2 fst) in Hin. destruct (Hk _ Hin). left.
      * apply list_elem_of_singleton in Hin as [= <-]. congruence.
  - rewrite lookup_insert_ne, Hlookup by done.
    split; intros (f' & resource' & Hin & Hrest); exists f', resource';
      (split; [|done]).
    + apply elem_of_app. by left.
    + apply elem_of_app in Hin as [Hin|Hin]; [done|].
      by apply list_elem_of_singleton in Hin as [= -> ->].
Qed.

Lemma CreateConverterMapAlong_panics
    (order : list (string * ConverterFactory SchemaMap)) :
  Exists (fun entry => ResourcesMap !! entry.1 = None) order ->
  CreateConverterMapAlong ResourcesMap order = None.
Proof.
  induction order as [|[k f] order IH] using rev_ind; intros Hex.
  { by apply Exists_nil in Hex. }
  rewrite CreateConverterMapAlong_snoc.
  apply Exists_app in Hex as [Hex|Hex].
  - by rewrite IH.
  - apply Exists_cons in Hex as [Hex|Hex]; [|by apply Exists_nil in Hex].
    simpl in Hex. rewrite Hex.
    by destruct (CreateConverterMapAlong ResourcesMap order).
Qed.

(** X21: when the provider has a resource for the name of every factory,
    [CreateConverterMap] returns, whatever the order in which it visits
    the factories, a map with exactly the names of the factories, each
    holding the converter its factory builds from the name and the schema
    of the provider's resource. *)
Theorem CreateConverterMap_builds_every_converter
    (converterFactories : gmap string (ConverterFactory SchemaMap)) order :
  RangeOf converterFactories order ->
  (forall name, name ∈ dom converterFactories -> is_Some (ResourcesMap !! name)) ->
  exists result,
    CreateConverterMapAlong ResourcesMap order = Some result
    /\ dom result = dom converterFactories
    /\ forall name factory resource,
         converterFactories !! name = Some factory ->
         ResourcesMap !! name = Some resource ->
         result !! name = Some (factory name (Schema resource)).
Proof.
  intros Hrange Hresources.
  destruct (CreateConverterMapAlong_lookup order) as (result & Hrun & Hlookup).
  { by eapply RangeOf_keys. }
  { apply Forall_forall. intros [name factory] Hin.
    apply (RangeOf_lookup _ _ _ _ Hrange) in Hin.
    apply Hresources, elem_of_dom. eauto. }
  exists result. split_and!; [done| |].
  - apply set_eq. intros name. rewrite !elem_of_dom. split.
    + intros [converter (factory & _ & Hin & _)%Hlookup].
      apply (RangeOf_lookup _ _ _ _ Hrange) in Hin. eauto.
    + intros [factory Hfactory].
      destruct (Hresources name) as [resource Hresource].
      { apply elem_of_dom. eauto. }
      exists (factory name (Schema resource)). apply Hlookup.
      exists factory, resource. split_and!; [|done..].
      by apply (RangeOf_lookup _ _ _ _ Hrange).
  - intros name factory resource Hfactory Hresource. apply Hlookup.
    exists factory, resource. split_and!; [|done..].
    by apply (RangeOf_lookup _ _ _ _ Hrange).
Qed.

(** X22: when the provider has no resource for the name of some factory,
    [CreateConverterMap] panics, whatever the order in which it visits
    the factories and however many converters it had built before. *)
Theorem CreateConverterMap_panics_without_resource
    (converterFactories : gmap string (ConverterFactory SchemaMap))
    order name :
  RangeOf converterFactories order ->
  name ∈ dom converterFactories ->
  ResourcesMap !! name = None ->
  CreateConverterMapAlong ResourcesMap order = None.
Proof.
  intros Hrange [factory Hfactory]%elem_of_dom Hnone.
  apply CreateConverterMapAlong_panics, Exists_exists.
  exists (name, factory). split; [|done].
  by apply (RangeOf_lookup _ _ _ _ Hrange).
Qed.

End CreateConverterMap_properties.

Lemma CreateConverterMap_builds_every_converter_witness :
  exists result,
    CreateConverterMapAlong projectsOnly (map_to_list projectFactory)
    = Some result
    /\ dom result = dom projectFactory
    /\ forall name factory resource,
         projectFactory !! name = Some factory ->
         projectsOnly !! name = Some resource ->
         result !! name = Some (factory name (Schema resource)).
Proof.
  apply (CreateConverterMap_builds_every_converter
           projectsOnly projectFactory (map_to_list projectFactory)).
  - apply RangeOf_exists.
  - intros name Hname. unfold projectFactory in Hname.
    rewrite dom_singleton_L in Hname.
    apply elem_of_singleton in Hname as ->. by eexists.
Defined.

Lemma CreateConverterMap_panics_without_resource_witness :
  CreateConverterMapAlong projectsOnly (map_to_list projectAndBucketFactories)
  = None.
Proof.
  apply (CreateConverterMap_panics_without_resource
           projectsOnly projectAndBucketFactories
           (map_to_list projectAndBucketFactories) "google_storage_bucket").
  - apply RangeOf_exists.
  - apply elem_of_dom. by eexists.
  - reflexivity.
Defined.

(** ** The custom diff of google_spanner_database *)

(** X23: the custom diff never panics, and it calls [ForceNew] on
    "ddl", once, exactly when the old statements are not a prefix of the
    new ones; statements appended to the old ones force nothing.  It
    returns an error only when that call of [ForceNew] fails. *)
Theorem resourceSpannerDBDdlCustomDiffFunc_forces_unless_appended
    oldDdls newDdls ForceNew :
  resourceSpannerDBDdlCustomDiffFunc oldDdls newDdls ForceNew
  = Some (if bool_decide (oldDdls `prefix_of` newDdls) then ([], None)
          else (["ddl"],
                (fun _ => ddlForceNewError oldDdls newDdls) <$> ForceNew "ddl")).
Proof.
  assert (forceNewDdl ForceNew oldDdls newDdls
          = (["ddl"],
             (fun _ => ddlForceNewError oldDdls newDdls) <$> ForceNew "ddl"))
    as Hforce by (unfold forceNewDdl; by destruct (ForceNew "ddl")).
  unfold resourceSpannerDBDdlCustomDiffFunc. rewrite Hforce.
  destruct (length newDdls <? length oldDdls) eqn:Hshort.
  { apply Nat.ltb_lt in Hshort. rewrite bool_decide_eq_false_2; [done|].
    intros Hprefix%prefix_length. lia. }
  apply Nat.ltb_ge in Hshort.
  set (forced := (["ddl"], _)).
  enough (forall olds i,
            length olds + i <= length newDdls ->
            (fix range (i : nat) (olds : list string)
                 : option (list string * option error) :=
               match olds with
               | [] => Some ([], None)
               | oldDdl :: olds' =>
                   match newDdls !! i with
                   | None => None
                   | Some newDdl =>
                       if negb (String.eqb newDdl oldDdl) then Some forced
                       else range (S i) olds'
                   end
               end) i olds
            = Some (if bool_decide (olds `prefix_of` drop i newDdls)
                    then ([], None) else forced)) as Hloop.
  { rewrite (Hloop oldDdls 0) by lia. by rewrite drop_0. }
  induction olds as [|oldDdl olds IH]; intros i Hlen.
  { rewrite bool_decide_eq_true_2; [done|]. apply prefix_nil. }
  simpl in Hlen.
  destruct (newDdls !! i) as [newDdl|] eqn:Hnew;
    [|apply lookup_ge_None in Hnew; lia].
  rewrite (drop_S _ _ _ Hnew).
  destruct (String.eqb newDdl oldDdl) eqn:Heq; simpl.
  - apply String.eqb_eq in Heq as ->. rewrite IH by lia.
    destruct (decide (olds `prefix_of` drop (S i) newDdls)) as [Hp|Hp].
    + rewrite !bool_decide_eq_true_2; [done| |done]. by apply prefix_cons.
    + rewrite !bool_decide_eq_false_2; [done| |done].
      intros Hp'. by apply prefix_cons_inv_2 in Hp'.
  - apply String.eqb_neq in Heq. rewrite bool_decide_eq_false_2; [done|].
    intros Hp%prefix_cons_inv_1. done.
Qed.

(** X24: whatever the order in which the fields of the schema are
    visited, a change is a virtual update exactly when
    "deletion_protection" has changed and no other field of the schema
    has. *)
Theorem resourceSpannerDBVirtualUpdate_only_deletion_protection
    {SchemaT : Type} (resourceSchema : gmap string SchemaT) HasChange order :
  RangeOf resourceSchema order ->
  resourceSpannerDBVirtualUpdateAlong HasChange order = true
  <-> HasChange "deletion_protection" = true
      /\ forall field,
           field ∈ dom resourceSchema ->
           field <> "deletion_protection" ->
           HasChange field = false.
Proof.
  intros Hrange. unfold resourceSpannerDBVirtualUpdateAlong.
  destruct (HasChange "deletion_protection"); [|by split; [|intros []]].
  assert (forall field,
            field ∈ dom resourceSchema <-> exists s, (field, s) ∈ order)
    as Hdom.
  { intros field. rewrite elem_of_dom. unfold is_Some.
    by setoid_rewrite (RangeOf_lookup _ _ _ _ Hrange). }
  setoid_rewrite Hdom. clear Hdom Hrange.
  induction order as [|[field s] order IH].
  { split; [|done]. intros _. split; [done|].
    intros field [s Hin]. by apply elem_of_nil in Hin. }
  destruct (String.eqb field "deletion_protection") eqn:Hfield.
  - apply String.eqb_eq in Hfield as ->. rewrite IH.
    split; intros [_ Hall]; (split; [done|]); intros field [s' Hin] Hne.
    + apply Hall; [|done]. apply elem_of_cons in Hin as [[= -> _]|Hin]; eauto.
      done.
    + apply Hall; [|done]. exists s'. by right.
  - apply String.eqb_neq in Hfield.
    destruct (HasChange field) eqn:Hchange.
    + split; [done|]. intros [_ Hall].
      rewrite Hall in Hchange; [done| |done]. exists s. left.
    + rewrite IH.
      split; intros [_ Hall]; (split; [done|]); intros field' [s' Hin] Hne.
      * apply elem_of_cons in Hin as [[= -> _]|Hin]; [done|]. apply Hall; eauto.
      * apply Hall; [|done]. exists s'. by right.
Qed.

Lemma resourceSpannerDBVirtualUpdate_only_deletion_protection_witness :
  resourceSpannerDBVirtualUpdateAlong onlyProtectionChanged
    (map_to_list spannerSchema) = true
  <-> onlyProtectionChanged "deletion_protection" = true
      /\ forall field,
           field ∈ dom spannerSchema ->
           field <> "deletion_protection" ->
           onlyProtectionChanged field = false.
Proof.
  apply (resourceSpannerDBVirtualUpdate_only_deletion_protection
           spannerSchema onlyProtectionChanged (map_to_list spannerSchema)).
  apply RangeOf_exists.
Defined.

(** ** The base paths of a test configuration *)

Lemma HasSuffix_slash_appended url :
  strings.HasSuffix (url +:+ "/") "/" = true.
Proof.
  unfold strings.HasSuffix.
  assert (String.length (url +:+ "/") = S (String.length url)) as ->
    by (induction url as [|c url IH]; simpl; [done|by rewrite IH]).
  change (String.length "/") with 1.
  replace (S (String.length url) - 1) with (String.length url) by lia.
  simpl. apply String.eqb_eq.
  induction url as [|c url IH]; [done|]. exact IH.
Qed.

(** X25: every base path [configureTestBasePaths] sets ends with a
    slash; the url is taken as it is when it ends with one, and
    configuring again with a path that was set changes nothing. *)
Theorem configureTestBasePaths_trailing_slash c url :
  Forall (fun basePath => strings.HasSuffix basePath "/" = true)
    (let c' := configureTestBasePaths c url in
     [ComputeBasePath c'; CloudBillingBasePath c'; ComposerBasePath c';
      ContainerBasePath c'; DataprocBasePath c'; DataflowBasePath c';
      IamCredentialsBasePath c'; ResourceManagerV3BasePath c'; IAMBasePath c';
      ServiceNetworkingBasePath c'; BigQueryBasePath c';
      StorageTransferBasePath c'; BigtableAdminBasePath c'])
  /\ (strings.HasSuffix url "/" = true ->
      ComputeBasePath (configureTestBasePaths c url) = url)
  /\ configureTestBasePaths (configureTestBasePaths c url)
       (ComputeBasePath (configureTestBasePaths c url))
     = configureTestBasePaths c url.
Proof.
  assert (strings.HasSuffix
            (if negb (strings.HasSuffix url "/") then url +:+ "/" else url) "/"
          = true) as Hslash.
  { destruct (strings.HasSuffix url "/") eqn:Hurl; simpl; [done|].
    apply HasSuffix_slash_appended. }
  split_and!.
  - simpl. by repeat constructor.
  - unfold configureTestBasePaths. simpl. by intros ->.
  - unfold configureTestBasePaths at 1. simpl. by rewrite Hslash.
Qed.
